(** * Zappy: the in-memory room engine of the live quiz server

    A shallow embedding of the socket handlers of the game server
    ([initGameSockets], [endQuestion], [makeLeaderboard]) and the
    properties of the room life cycle, the scoring rule and the
    leaderboard that the specification states about them.

    Conventions of the embedding.
    - A JavaScript [Map] keeps its entries in insertion order and the code
      observes that order ([Array.from(room.players.values())], the sweep of
      [rooms.entries()] on disconnect), so a [Map] is an association list
      whose [set] overwrites in place or appends ([JSMap]).
    - Socket ids and room codes are strings.  Times are integer
      milliseconds ([Z]); every handler that reads [Date.now()] takes the
      clock reading as an argument.
    - Choice indices, lengths and the question index are integers.  Scores
      are JavaScript numbers; the only operation of the program that leaves
      the integers is the partial-credit quotient [1000 / n], so scores are
      exact rationals ([Q]) and the rounding of doubles is not modelled.
    - Payloads have the shape that the handlers destructure: the quiz is an
      object with an array of question objects, whose [correctIndices] and
      [timeLimitSec] may be missing; [choiceIndices] is one integer or an
      array of integers (so [Number] is the identity on them).
    - A handler returns how it completed (it returned, or a [TypeError]
      escaped it), the room table it leaves behind and the socket.io calls
      it made, in order.  [console.log] lines are not modelled.
    - [jwt.verify] and the [Math.random] draw of the room code are the
      environment's: [host:create_room] takes their results as arguments. *)

From Stdlib Require Import List String ZArith QArith Qminmax Bool Lia.
From Stdlib Require Import Permutation Sorted Lqa.
Import ListNotations.

Local Open Scope string_scope.
Local Open Scope Z_scope.

(** ** Insertion-ordered maps (the JavaScript [Map]) *)

Module JSMap.
Section WithValue.
Context {V : Type}.

Definition t := list (string * V).

Definition empty : t := [].

Fixpoint get (k : string) (m : t) : option V :=
  match m with
  | [] => None
  | (k', v) :: m' => if String.eqb k k' then Some v else get k m'
  end.

Definition has (k : string) (m : t) : bool :=
  match get k m with Some _ => true | None => false end.

(** [m.set(k, v)]: an existing key keeps its position. *)
Fixpoint set (k : string) (v : V) (m : t) : t :=
  match m with
  | [] => [(k, v)]
  | (k', v') :: m' =>
      if String.eqb k k' then (k, v) :: m' else (k', v') :: set k v m'
  end.

Definition delete (k : string) (m : t) : t :=
  filter (fun e => negb (String.eqb k (fst e))) m.

Definition keys (m : t) : list string := map fst m.
Definition values (m : t) : list V := map snd m.
Definition size (m : t) : nat := List.length m.

(** The keys of a [Map] are pairwise distinct. *)
Definition wf (m : t) : Prop := NoDup (keys m).
End WithValue.
Arguments t : clear implicits.
End JSMap.

(** ** [Array.prototype.sort]

    The sort of the language is stable (ECMAScript 2019; the engine sorts
    with TimSort).  [before x y] is the test [compare(x, y) <= 0].  For a
    comparator that is a total preorder the result of a stable sort does not
    depend on the algorithm ([js_sort_unique] below), and insertion from the
    right is the simplest one. *)

Section Sort.
Context {A : Type} (before : A -> A -> bool).

Fixpoint sort_insert (x : A) (l : list A) : list A :=
  match l with
  | [] => [x]
  | y :: l' => if before x y then x :: l else y :: sort_insert x l'
  end.

Fixpoint js_sort (l : list A) : list A :=
  match l with
  | [] => []
  | x :: l' => sort_insert x (js_sort l')
  end.

(** The comparator does not tell [x] from [y]. *)
Definition tied (x y : A) : bool := before x y && before y x.
End Sort.

(** ** Data model *)

Definition SocketId := string.
Definition RoomCode := string.

(** A question of the quiz as the host sends it.  [correctIndices] and
    [timeLimitSec] may be missing ([undefined]). *)
Record Question := mkQuestion {
  text : string;
  choices : list string;
  correctIndices : option (list Z);
  timeLimitSec : option Z
}.

Record Quiz := mkQuiz { questions : list Question }.

Record Player := mkPlayer {
  name : string;
  score : Q;
  answered : bool
}.

(** [oid] is not a field of the JavaScript object: it stands for the
    identity of the object that [host:create_room] allocates (the number of
    rooms created before it), so that "the same room" can be told from
    "another room under the same code". *)
Record Room := mkRoom {
  oid : nat;
  hostId : SocketId;
  hostUserId : string;
  quiz : Quiz;
  players : JSMap.t Player;
  currentQ : Z;
  endsAt : option Z
}.

Definition Rooms := JSMap.t Room.

Definition with_players (room : Room) (ps : JSMap.t Player) : Room :=
  mkRoom (oid room) (hostId room) (hostUserId room) (quiz room) ps
         (currentQ room) (endsAt room).

Definition with_currentQ (room : Room) (i : Z) : Room :=
  mkRoom (oid room) (hostId room) (hostUserId room) (quiz room) (players room)
         i (endsAt room).

Definition with_endsAt (room : Room) (t : option Z) : Room :=
  mkRoom (oid room) (hostId room) (hostUserId room) (quiz room) (players room)
         (currentQ room) t.

Definition with_answered (p : Player) (b : bool) : Player :=
  mkPlayer (name p) (score p) b.

Definition with_score (p : Player) (s : Q) : Player :=
  mkPlayer (name p) s (answered p).

(** [arr[i]]: [undefined] outside [0 .. length-1]. *)
Definition at_index {A : Type} (arr : list A) (i : Z) : option A :=
  if i <? 0 then None else nth_error arr (Z.to_nat i).

(** [room.quiz.questions[room.currentQ]] *)
Definition current_question (room : Room) : option Question :=
  at_index (questions (quiz room)) (currentQ room).

(** ** What a handler sends *)

Definition Standing := (string * Q)%type.

Inductive Payload :=
| error (message : string)
| host_room_created (roomCode : RoomCode)
| host_players_update (ps : list Player)
| lobby_update (count : nat)
| game_over (leaderboard : list Standing)
| question_start (index : Z) (qtext : string) (qchoices : list string)
                 (deadline : Z) (hasMultipleAnswers : option bool)
| question_end (answerKey : option (list Z)) (leaderboard : list Standing)
| player_answer_result (correct : bool)
| host_leaderboard (leaderboard : list Standing)
| game_closed.

Inductive Effect :=
| Emit (to : string) (p : Payload)          (* io.to(to).emit(...) *)
| Join (socket : SocketId) (group : RoomCode)  (* socket.join(group) *)
| SetTimeout (delayMs : Z) (roomCode : RoomCode).
                              (* setTimeout(() => endQuestion(io, roomCode), delayMs) *)

Inductive Completion :=
| Returned
| Threw (exn : string).

Record Result := mkResult {
  completion : Completion;
  store : Rooms;
  effects : list Effect
}.

Definition done (rooms : Rooms) (effs : list Effect) : Result :=
  mkResult Returned rooms effs.

Definition TypeError : Completion :=
  Threw "TypeError: Cannot read properties of undefined".

(** ** [makeLeaderboard] *)

Definition standing (p : Player) : Standing := (name p, score p).

(** The comparator [(a, b) => b.score - a.score].  Only its sign is used,
    and the difference of two doubles has the sign of their exact
    difference. *)
Definition by_score_desc (a b : Standing) : Q := snd b - snd a.

Definition makeLeaderboard (room : Room) : list Standing :=
  js_sort (fun a b => Qle_bool (by_score_desc a b) 0)
          (map standing (JSMap.values (players room))).

(** ** The scoring rule of [player:answer] *)

(** The [choiceIndices] field of the payload: one index or an array. *)
Inductive ChoiceIndices :=
| one_choice (idx : Z)
| choice_array (idxs : list Z).

(** [Array.isArray(choiceIndices)
      ? choiceIndices.map(Number).sort((a, b) => a - b)
      : [Number(choiceIndices)]] *)
Definition playerAnswers (choiceIndices : ChoiceIndices) : list Z :=
  match choiceIndices with
  | choice_array idxs => js_sort (fun a b => a - b <=? 0) idxs
  | one_choice idx => [idx]
  end.

(** The indices that the payload lists, as the client wrote them. *)
Definition submitted (choiceIndices : ChoiceIndices) : list Z :=
  match choiceIndices with
  | choice_array idxs => idxs
  | one_choice idx => [idx]
  end.

(** [arr.includes(idx)] *)
Definition includes (arr : list Z) (idx : Z) : bool := existsb (Z.eqb idx) arr.

Definition of_length {A : Type} (l : list A) : Q :=
  inject_Z (Z.of_nat (List.length l)).

(** Lines 105-121 of the handler, for a question [q] that exists. *)
Definition scoreEarned (q : Question) (answers : list Z) (timeLeftMs : Z) : Q :=
  match correctIndices q with
  | Some key =>
      if (0 <? List.length key)%nat then
        let correctChoices := filter (includes key) answers in
        let incorrectChoices := filter (fun idx => negb (includes key idx)) answers in
        let isFullyCorrect :=
          (List.length correctChoices =? List.length key)%nat
          && (List.length incorrectChoices =? 0)%nat in
        if isFullyCorrect then
          let bonus := timeLeftMs / 50 in
          inject_Z (1000 + bonus)
        else if (0 <? List.length correctChoices)%nat then
          let pointsPerCorrect := (1000 / of_length key)%Q in
          (pointsPerCorrect * of_length correctChoices)%Q
        else 0%Q
      else 0%Q
  | None => 0%Q
  end.

(** [Math.max(0, room.endsAt - Date.now())]; a [null] deadline counts as 0
    in the subtraction. *)
Definition timeLeftMs (room : Room) (now : Z) : Z :=
  Z.max 0 (match endsAt room with Some t => t | None => 0 end - now).

(** ** The handlers *)

(** What [jwt.verify] returns for a token it accepts. *)
Record Decoded := mkDecoded { user_id : string; role : string }.

(** [host:create_room].  [verified] is the outcome of [jwt.verify] on the
    token of the payload ([None] when it throws), [roomCode] the code that
    the [Math.random] expression draws, [fresh] the identity of the room
    object allocated here. *)
Definition on_create_room (socket : SocketId) (quiz : Quiz)
    (verified : option Decoded) (roomCode : RoomCode) (fresh : nat)
    (rooms : Rooms) : Result :=
  match verified with
  | None => done rooms [Emit socket (error "Invalid or expired token.")]
  | Some decoded =>
      if negb (String.eqb (role decoded) "host") then
        done rooms
             [Emit socket (error "Unauthorized: Only hosts can create rooms.")]
      else
        let room := mkRoom fresh socket (user_id decoded) quiz JSMap.empty (-1) None in
        done (JSMap.set roomCode room rooms)
             [Join socket roomCode; Emit socket (host_room_created roomCode)]
  end.

(** [player:join] *)
Definition on_join (socket : SocketId) (roomCode : RoomCode) (name : string)
    (rooms : Rooms) : Result :=
  match JSMap.get roomCode rooms with
  | None => done rooms [Emit socket (error "Room not found")]
  | Some room =>
      let room' :=
        with_players room (JSMap.set socket (mkPlayer name 0 false) (players room)) in
      done (JSMap.set roomCode room' rooms)
           [Join socket roomCode;
            Emit roomCode (host_players_update (JSMap.values (players room')));
            Emit roomCode (lobby_update (JSMap.size (players room')))]
  end.

(** [q.timeLimitSec || 20] *)
Definition time_limit (q : Question) : Z :=
  match timeLimitSec q with
  | Some t => if t =? 0 then 20 else t
  | None => 20
  end.

(** [for (const p of room.players.values()) p.answered = false] *)
Definition reset_answered (ps : JSMap.t Player) : JSMap.t Player :=
  map (fun e => (fst e, with_answered (snd e) false)) ps.

(** [host:next_question] *)
Definition on_next_question (socket : SocketId) (roomCode : RoomCode) (now : Z)
    (rooms : Rooms) : Result :=
  match JSMap.get roomCode rooms with
  | None => done rooms []
  | Some room =>
      if negb (String.eqb socket (hostId room)) then done rooms []
      else
        let room1 := with_currentQ room (currentQ room + 1) in
        if Z.of_nat (List.length (questions (quiz room1))) <=? currentQ room1 then
          done (JSMap.set roomCode room1 rooms)
               [Emit roomCode (game_over (makeLeaderboard room1))]
        else
          match current_question room1 with
          | None =>
              (* [q.timeLimitSec] on [undefined] *)
              mkResult TypeError
                       (JSMap.set roomCode
                          (with_players room1 (reset_answered (players room1))) rooms)
                       []
          | Some q =>
              let room2 := with_players room1 (reset_answered (players room1)) in
              let room3 := with_endsAt room2 (Some (now + time_limit q * 1000)) in
              let hasMultipleAnswers :=
                match correctIndices q with
                | Some key => Some (1 <? List.length key)%nat
                | None => None
                end in
              done (JSMap.set roomCode room3 rooms)
                   [Emit roomCode
                         (question_start (currentQ room3) (text q) (choices q)
                                         (now + time_limit q * 1000)
                                         hasMultipleAnswers);
                    SetTimeout (time_limit q * 1000 + 200) roomCode]
          end
  end.

(** [player:answer] *)
Definition on_answer (socket : SocketId) (roomCode : RoomCode)
    (choiceIndices : ChoiceIndices) (now : Z) (rooms : Rooms) : Result :=
  match JSMap.get roomCode rooms with
  | None => done rooms []
  | Some room =>
      let q := current_question room in
      match JSMap.get socket (players room) with
      | None => done rooms []
      | Some player =>
          if answered player then done rooms []
          else
            let player1 := with_answered player true in
            let left := timeLeftMs room now in
            let answers := playerAnswers choiceIndices in
            match q with
            | None =>
                (* [q.correctIndices] on [undefined]; [answered] is already set *)
                mkResult TypeError
                  (JSMap.set roomCode
                     (with_players room (JSMap.set socket player1 (players room)))
                     rooms)
                  []
            | Some q =>
                let earned := scoreEarned q answers left in
                let player2 := with_score player1 (score player1 + earned)%Q in
                let room' :=
                  with_players room (JSMap.set socket player2 (players room)) in
                done (JSMap.set roomCode room' rooms)
                     [Emit socket (player_answer_result (negb (Qle_bool earned 0)));
                      Emit (hostId room) (host_leaderboard (makeLeaderboard room'))]
            end
      end
  end.

(** The body of the [disconnect] loop for one entry of [rooms.entries()]. *)
Definition disconnect_entry (socket : SocketId)
    (acc : Rooms * list Effect) (entry : RoomCode * Room) : Rooms * list Effect :=
  let '(code, room) := entry in
  let '(rooms, effs) := acc in
  if String.eqb (hostId room) socket then
    (JSMap.delete code rooms, (effs ++ [Emit code game_closed])%list)
  else if JSMap.has socket (players room) then
    let room' := with_players room (JSMap.delete socket (players room)) in
    (JSMap.set code room' rooms,
     (effs ++ [Emit code (host_players_update (JSMap.values (players room')))])%list)
  else (rooms, effs).

(** [disconnect]: the loop only ever deletes the entry it is visiting, so it
    visits exactly the entries that the table had when it started. *)
Definition on_disconnect (socket : SocketId) (rooms : Rooms) : Result :=
  let '(rooms', effs) := fold_left (disconnect_entry socket) rooms (rooms, []) in
  done rooms' effs.

(** What the [disconnect] loop sends while it visits one entry. *)
Definition disconnect_sends (socket : SocketId) (entry : RoomCode * Room)
  : list Effect :=
  if String.eqb (hostId (snd entry)) socket then [Emit (fst entry) game_closed]
  else if JSMap.has socket (players (snd entry)) then
    [Emit (fst entry)
          (host_players_update
             (JSMap.values (JSMap.delete socket (players (snd entry)))))]
  else [].

(** What the [disconnect] loop leaves of one room. *)
Definition disconnect_leaves (socket : SocketId) (room : Room) : option Room :=
  if String.eqb (hostId room) socket then None
  else if JSMap.has socket (players room) then
    Some (with_players room (JSMap.delete socket (players room)))
  else Some room.

(** [endQuestion], the callback of the timer *)
Definition endQuestion (roomCode : RoomCode) (rooms : Rooms) : Result :=
  match JSMap.get roomCode rooms with
  | None => done rooms []
  | Some room =>
      match current_question room with
      | None => mkResult TypeError rooms []   (* [q.correctIndices] on [undefined] *)
      | Some q =>
          done rooms
               [Emit roomCode (question_end (correctIndices q) (makeLeaderboard room))]
      end
  end.

(** ** The server: the module-level [rooms] table and the events it handles *)

Inductive Event :=
| host_create_room (socket : SocketId) (quiz : Quiz)
                   (verified : option Decoded) (drawn : RoomCode)
| player_join (socket : SocketId) (roomCode : RoomCode) (name : string)
| host_next_question (socket : SocketId) (roomCode : RoomCode) (now : Z)
| player_answer (socket : SocketId) (roomCode : RoomCode)
                (choiceIndices : ChoiceIndices) (now : Z)
| disconnect (socket : SocketId)
| timer_fires (roomCode : RoomCode).

(** [created] counts the room objects allocated so far. *)
Record Server := mkServer {
  rooms : Rooms;
  created : nat
}.

Definition boot : Server := mkServer JSMap.empty 0.

Definition handle (e : Event) (s : Server) : Result :=
  match e with
  | host_create_room socket quiz verified drawn =>
      on_create_room socket quiz verified drawn (created s) (rooms s)
  | player_join socket roomCode name => on_join socket roomCode name (rooms s)
  | host_next_question socket roomCode now =>
      on_next_question socket roomCode now (rooms s)
  | player_answer socket roomCode choiceIndices now =>
      on_answer socket roomCode choiceIndices now (rooms s)
  | disconnect socket => on_disconnect socket (rooms s)
  | timer_fires roomCode => endQuestion roomCode (rooms s)
  end.

Definition allocates (e : Event) : nat :=
  match e with
  | host_create_room _ _ _ _ => 1
  | _ => 0
  end.

(** One event.  When a [TypeError] escapes a handler the table keeps what
    the handler had written before; whether the process survives it is up
    to the embedding application, so the run goes on from that table. *)
Definition step (s : Server) (e : Event) : Server :=
  mkServer (store (handle e s)) (created s + allocates e).

Definition run (s : Server) (es : list Event) : Server := fold_left step es s.

(** Every room of the table was allocated before now. *)
Definition fresh_below (s : Server) : Prop :=
  forall code room, JSMap.get code (rooms s) = Some room -> (oid room < created s)%nat.

(** What holds of the table of a running server. *)
Definition inv (s : Server) : Prop := JSMap.wf (rooms s) /\ fresh_below s.

(** [room'] is what event [e] made of [room], found under [roomCode]: the
    same object, with the same quiz and host, and an index that either
    stayed or was advanced by one by the host's [host:next_question]. *)
Definition evolves (e : Event) (roomCode : RoomCode) (room room' : Room) : Prop :=
  oid room' = oid room
  /\ quiz room' = quiz room
  /\ hostId room' = hostId room
  /\ (currentQ room' = currentQ room
      \/ (currentQ room' = currentQ room + 1
          /\ exists now, e = host_next_question (hostId room) roomCode now)).

(** [room'] is a later state of the object [room]. *)
Definition later (room room' : Room) : Prop :=
  oid room' = oid room
  /\ quiz room' = quiz room
  /\ hostId room' = hostId room
  /\ currentQ room <= currentQ room'.

Definition is_question_start (eff : Effect) : bool :=
  match eff with
  | Emit _ (question_start _ _ _ _ _) => true
  | _ => false
  end.

(** The score of the player on [socket] in the room under [roomCode]. *)
Definition score_of (tbl : Rooms) (roomCode : RoomCode) (socket : SocketId) : option Q :=
  match JSMap.get roomCode tbl with
  | Some room => option_map score (JSMap.get socket (players room))
  | None => None
  end.

(** The [answered] flag of that player. *)
Definition answered_of (tbl : Rooms) (roomCode : RoomCode) (socket : SocketId)
  : option bool :=
  match JSMap.get roomCode tbl with
  | Some room => option_map answered (JSMap.get socket (players room))
  | None => None
  end.

(** ** Scenarios used below *)

(** Three players in joining order: two tied at 1000, then one at 500. *)
Definition tied_room : Room :=
  mkRoom 0 "H" "u-1" (mkQuiz [])
         [("b", mkPlayer "B" 1000 true);
          ("c", mkPlayer "C" 1000 true);
          ("a", mkPlayer "A" 500 true)]
         0 None.


(** One correct choice, twenty seconds (the scenario of the specification). *)
Definition q_single : Question := mkQuestion "2 + 2 ?" ["3"; "4"] (Some [1]) (Some 20).

(** Two correct choices, default time limit. *)
Definition q_multi : Question :=
  mkQuestion "Which are prime ?" ["2"; "4"; "5"] (Some [0; 2]) None.

Definition host_token : option Decoded := Some (mkDecoded "u-1" "host").

(** A host opens room ABCD with [quiz]; pat and ron join. *)
Definition lobby (quiz : Quiz) : Server :=
  run boot [host_create_room "H" quiz host_token "ABCD";
            player_join "P" "ABCD" "pat";
            player_join "R" "ABCD" "ron"].

(** The first question of the one-question quiz started at time 0. *)
Definition single_running : Server :=
  step (lobby (mkQuiz [q_single])) (host_next_question "H" "ABCD" 0).

(** The host has gone past the only question: the game is over. *)
Definition single_over : Server :=
  step single_running (host_next_question "H" "ABCD" 21000).

(** The events of [lobby], [single_running] and [single_over]. *)
Definition lobby_events (quiz : Quiz) : list Event :=
  [host_create_room "H" quiz host_token "ABCD";
   player_join "P" "ABCD" "pat";
   player_join "R" "ABCD" "ron"].

(** Room ABCD in [lobby], in [single_running] and in [single_over]. *)
Definition abcd_lobby : Room :=
  mkRoom 0 "H" "u-1" (mkQuiz [q_single])
         [("P", mkPlayer "pat" 0 false); ("R", mkPlayer "ron" 0 false)] (-1) None.

Definition abcd_running : Room :=
  with_endsAt (with_currentQ abcd_lobby 0) (Some 20000).

Definition abcd_over : Room := with_currentQ abcd_running 1.

(** Room ABCD in [double_second]. *)
Definition abcd_second : Room :=
  mkRoom 0 "H" "u-1" (mkQuiz [q_single; q_multi])
         [("P", mkPlayer "pat" 0 false); ("R", mkPlayer "ron" 0 false)]
         1 (Some 25000).

(** pat has answered the running question (correctly, 5 s before the end). *)
Definition single_answered : Server :=
  step single_running (player_answer "P" "ABCD" (one_choice 1) 15000).

(** Two questions; the host starts the first at time 0 ... *)
Definition double_first : Server :=
  step (lobby (mkQuiz [q_single; q_multi])) (host_next_question "H" "ABCD" 0).

(** ... and moves on to the second after five seconds, fifteen seconds
    before the timer of the first is due. *)
Definition double_second : Server :=
  step double_first (host_next_question "H" "ABCD" 5000).

(** In [double_first], pat has answered the first question. *)
Definition double_answered : Server :=
  step double_first (player_answer "P" "ABCD" (one_choice 1) 15000).

Definition abcd_answered : Room :=
  mkRoom 0 "H" "u-1" (mkQuiz [q_single; q_multi])
         [("P", mkPlayer "pat" 1100 true); ("R", mkPlayer "ron" 0 false)]
         0 (Some 20000).

(** ** Vocabulary of the further properties *)

(** The correct choices of a question; none when the key is missing. *)
Definition key_of (q : Question) : list Z :=
  match correctIndices q with
  | Some key => key
  | None => []
  end.

(** The room code that an event names; a disconnect names none. *)
Definition addressed (e : Event) : option RoomCode :=
  match e with
  | host_create_room _ _ _ drawn => Some drawn
  | player_join _ roomCode _ => Some roomCode
  | host_next_question _ roomCode _ => Some roomCode
  | player_answer _ roomCode _ _ => Some roomCode
  | disconnect _ => None
  | timer_fires roomCode => Some roomCode
  end.

(** The connection that an event comes from; a timer comes from none. *)
Definition sender (e : Event) : option SocketId :=
  match e with
  | host_create_room socket _ _ _ => Some socket
  | player_join socket _ _ => Some socket
  | host_next_question socket _ _ => Some socket
  | player_answer socket _ _ _ => Some socket
  | disconnect socket => Some socket
  | timer_fires _ => None
  end.


(** No player of the table has a negative score. *)
Definition scores_ok (tbl : Rooms) : Prop :=
  forall code room socket p,
    JSMap.get code tbl = Some room ->
    JSMap.get socket (players room) = Some p ->
    (0 <= score p)%Q.

(** The connection is the host of no room and a player of none. *)
Definition unknown_socket (socket : SocketId) (tbl : Rooms) : Prop :=
  forall code room,
    In (code, room) tbl ->
    hostId room <> socket /\ JSMap.has socket (players room) = false.

(** What only the host of a room can make the server do: start a question,
    end the game, set the timer of a question. *)
Definition host_only (eff : Effect) : bool :=
  match eff with
  | Emit _ (question_start _ _ _ _ _) => true
  | Emit _ (game_over _) => true
  | SetTimeout _ _ => true
  | _ => false
  end.

(** The room that a message is about. *)
Definition about (eff : Effect) : string :=
  match eff with
  | Emit to _ => to
  | Join _ group => group
  | SetTimeout _ roomCode => roomCode
  end.

(** Every room whose index points at a question has a deadline. *)
Definition deadline_ok (tbl : Rooms) : Prop :=
  forall code room q,
    JSMap.get code tbl = Some room ->
    current_question room = Some q ->
    exists deadline, endsAt room = Some deadline.

(** ** The draw of a room code

    [(Math.random().toString(36).slice(2, 6)).toUpperCase()].  The
    rendering of the random number in base 36 is the environment's: it is
    "0" or "0." followed by digits [0-9a-z]. *)

Definition is_digit (c : Ascii.ascii) : bool :=
  (48 <=? Ascii.nat_of_ascii c)%nat && (Ascii.nat_of_ascii c <=? 57)%nat.

Definition is_lower (c : Ascii.ascii) : bool :=
  (97 <=? Ascii.nat_of_ascii c)%nat && (Ascii.nat_of_ascii c <=? 122)%nat.

Definition is_upper (c : Ascii.ascii) : bool :=
  (65 <=? Ascii.nat_of_ascii c)%nat && (Ascii.nat_of_ascii c <=? 90)%nat.

(** [toUpperCase] on the characters that such a rendering contains: the
    letters a-z move to A-Z, every other ASCII character stays. *)
Definition upper_char (c : Ascii.ascii) : Ascii.ascii :=
  if is_lower c then Ascii.ascii_of_nat (Ascii.nat_of_ascii c - 32) else c.

Fixpoint toUpperCase (s : string) : string :=
  match s with
  | EmptyString => EmptyString
  | String c s' => String (upper_char c) (toUpperCase s')
  end.

(** [s.slice(2, 6)]: the characters at positions 2 to 5, as far as they
    exist. *)
Definition slice_2_6 (s : string) : string := String.substring 2 4 s.

Definition draw_room_code (rendering : string) : RoomCode :=
  toUpperCase (slice_2_6 rendering).

Fixpoint string_forall (p : Ascii.ascii -> bool) (s : string) : bool :=
  match s with
  | EmptyString => true
  | String c s' => p c && string_forall p s'
  end.

(** A digit of base 36, and a character of a room code. *)
Definition base36_digit (c : Ascii.ascii) : bool := is_digit c || is_lower c.
Definition code_char (c : Ascii.ascii) : bool := is_digit c || is_upper c.

(** * Properties *)

(** ** Facts about insertion-ordered maps *)

Module JSMapFacts.
Import JSMap.
Section WithValue.
Context {V : Type}.
Implicit Types (m : JSMap.t V) (k : string) (v : V).

Lemma get_set_same k v m : get k (set k v m) = Some v.
Proof.
  induction m as [|[k' v'] m IH]; simpl.
  - now rewrite String.eqb_refl.
  - destruct (String.eqb k k') eqn:E; simpl; rewrite ?String.eqb_refl, ?E; auto.
Qed.

Lemma get_set_other k k' v m : k <> k' -> get k' (set k v m) = get k' m.
Proof.
  intros Hne. induction m as [|[k0 v0] m IH]; simpl.
  - destruct (String.eqb k' k) eqn:E; auto.
    apply String.eqb_eq in E. congruence.
  - destruct (String.eqb k k0) eqn:E; simpl.
    + apply String.eqb_eq in E. subst k0.
      destruct (String.eqb k' k) eqn:E'; auto.
      apply String.eqb_eq in E'. congruence.
    + now rewrite IH.
Qed.

Lemma get_delete_same k m : get k (delete k m) = None.
Proof.
  induction m as [|[k' v'] m IH]; simpl; auto.
  destruct (String.eqb k k') eqn:E; simpl; auto. now rewrite E.
Qed.

Lemma get_delete_other k k' m : k <> k' -> get k' (delete k m) = get k' m.
Proof.
  intros Hne. induction m as [|[k0 v0] m IH]; simpl; auto.
  destruct (String.eqb k k0) eqn:E; simpl.
  - apply String.eqb_eq in E. subst k0.
    destruct (String.eqb k' k) eqn:E'; auto.
    apply String.eqb_eq in E'. congruence.
  - now rewrite IH.
Qed.

Lemma get_None k m : get k m = None <-> ~ In k (keys m).
Proof.
  induction m as [|[k' v'] m IH]; simpl.
  - tauto.
  - destruct (String.eqb k k') eqn:E.
    + apply String.eqb_eq in E. subst. split; [discriminate | tauto].
    + apply String.eqb_neq in E. rewrite IH. intuition congruence.
Qed.

Lemma get_In k v m : get k m = Some v -> In (k, v) m.
Proof.
  induction m as [|[k' v'] m IH]; simpl; [discriminate|].
  destruct (String.eqb k k') eqn:E.
  - apply String.eqb_eq in E. intros [= ->]. subst. now left.
  - auto.
Qed.

Lemma keys_set k v m :
  keys (set k v m) = if has k m then keys m else (keys m ++ [k])%list.
Proof.
  unfold has. induction m as [|[k' v'] m IH]; simpl; auto.
  destruct (String.eqb k k') eqn:E; simpl.
  - apply String.eqb_eq in E. now subst.
  - rewrite IH. now destruct (get k m).
Qed.

Lemma wf_set k v m : wf m -> wf (set k v m).
Proof.
  unfold wf. intros Hm. rewrite keys_set. unfold has.
  destruct (get k m) eqn:E; auto.
  apply get_None in E.
  apply NoDup_rev in Hm. apply (NoDup_cons k) in Hm.
  - apply NoDup_rev in Hm. simpl in Hm. now rewrite rev_involutive in Hm.
  - now rewrite <- in_rev.
Qed.

Lemma wf_delete k m : wf m -> wf (delete k m).
Proof.
  unfold wf, delete, keys. induction m as [|[k' v'] m IH]; simpl; auto.
  intros Hm. inversion Hm as [|? ? Hnin Hm']; subst.
  destruct (String.eqb k k'); simpl; auto.
  constructor; auto.
  rewrite in_map_iff. intros [[k0 v0] [Hk Hin]]. simpl in Hk. subst k0.
  apply filter_In in Hin. apply Hnin.
  apply in_map_iff. exists (k', v0). tauto.
Qed.

Lemma wf_tail k v m : wf ((k, v) :: m) -> get k m = None /\ wf m.
Proof.
  unfold wf. simpl. intros H. inversion H; subst. split; auto.
  now apply get_None.
Qed.
End WithValue.
End JSMapFacts.

(** ** Facts about the stable sort *)

Section SortFacts.
Context {A : Type} (before : A -> A -> bool).

Lemma sort_insert_perm (x : A) (l : list A) :
  Permutation (x :: l) (sort_insert before x l).
Proof.
  induction l as [|y l IH]; simpl; auto.
  destruct (before x y); auto.
  rewrite perm_swap. now constructor.
Qed.

Lemma js_sort_perm (l : list A) : Permutation l (js_sort before l).
Proof.
  induction l as [|x l IH]; simpl; auto.
  rewrite <- sort_insert_perm. now constructor.
Qed.

(** A class of elements that the comparator never puts one after another
    (for instance all the elements with one given key) comes out of the
    sort in the order in which it went in. *)
Lemma sort_insert_filter (p : A -> bool) (x : A) (l : list A) :
  (forall z, p x = true -> p z = true -> before x z = true) ->
  filter p (sort_insert before x l) = filter p (x :: l).
Proof.
  intros Hp. induction l as [|y l IH]; simpl; auto.
  destruct (before x y) eqn:E; simpl; auto.
  simpl in IH. rewrite IH.
  destruct (p x) eqn:Px; auto.
  destruct (p y) eqn:Py; auto.
  rewrite (Hp y) in E; auto. discriminate.
Qed.

Lemma js_sort_stable (p : A -> bool) (l : list A) :
  (forall x z, p x = true -> p z = true -> before x z = true) ->
  filter p (js_sort before l) = filter p l.
Proof.
  intros Hp. induction l as [|x l IH]; simpl; auto.
  rewrite sort_insert_filter by (apply Hp).
  simpl. now rewrite IH.
Qed.

Hypothesis before_total : forall x y, before x y = false -> before y x = true.
Hypothesis before_trans :
  forall x y z, before x y = true -> before y z = true -> before x z = true.

Lemma sort_insert_sorted (x : A) (l : list A) :
  StronglySorted (fun a b => before a b = true) l ->
  StronglySorted (fun a b => before a b = true) (sort_insert before x l).
Proof.
  induction 1 as [|y l Hs IH Hall]; simpl.
  - repeat constructor.
  - destruct (before x y) eqn:E.
    + constructor; [now constructor|].
      constructor; auto.
      eapply Forall_impl; [|exact Hall]. intros z Hz. eauto.
    + constructor; auto.
      rewrite Forall_forall. intros z Hz.
      apply (Permutation_in _ (Permutation_sym (sort_insert_perm x l))) in Hz.
      destruct Hz as [<-|Hz]; auto.
      rewrite Forall_forall in Hall. auto.
Qed.

Lemma js_sort_sorted (l : list A) :
  StronglySorted (fun a b => before a b = true) (js_sort before l).
Proof.
  induction l as [|x l IH]; simpl; [constructor|].
  now apply sort_insert_sorted.
Qed.

Lemma tied_refl (x : A) : tied before x x = true.
Proof.
  unfold tied. destruct (before x x) eqn:E; auto.
  now rewrite (before_total x x E) in E.
Qed.

Lemma js_sort_ties (x : A) (l : list A) :
  filter (tied before x) (js_sort before l) = filter (tied before x) l.
Proof.
  apply js_sort_stable. unfold tied. intros a z Ha Hz.
  apply andb_true_iff in Ha, Hz. destruct Ha, Hz. eauto.
Qed.

Lemma sorted_head_first (a : A) (l : list A) (z : A) :
  StronglySorted (fun a b => before a b = true) (a :: l) ->
  In z (a :: l) -> before a z = true.
Proof.
  intros Hs [<-|Hz].
  - pose proof (tied_refl a) as H. unfold tied in H.
    now apply andb_true_iff in H.
  - inversion Hs as [|? ? _ Hall]; subst.
    rewrite Forall_forall in Hall. auto.
Qed.

(** Two sorted lists in which every class of tied elements appears in the
    same order are the same list. *)
Lemma stable_sorted_unique (l1 l2 : list A) :
  StronglySorted (fun a b => before a b = true) l1 ->
  StronglySorted (fun a b => before a b = true) l2 ->
  (forall x, filter (tied before x) l1 = filter (tied before x) l2) ->
  l1 = l2.
Proof.
  revert l2. induction l1 as [|a l1 IH]; intros [|b l2] Hs1 Hs2 Hties; auto.
  - specialize (Hties b). simpl in Hties. now rewrite tied_refl in Hties.
  - specialize (Hties a). simpl in Hties. now rewrite tied_refl in Hties.
  - assert (Ha : In a (b :: l2)).
    { assert (H : In a (filter (tied before a) (b :: l2))).
      { rewrite <- Hties. simpl. rewrite tied_refl. now left. }
      now apply filter_In in H. }
    assert (Hb : In b (a :: l1)).
    { assert (H : In b (filter (tied before b) (a :: l1))).
      { rewrite Hties. simpl. rewrite tied_refl. now left. }
      now apply filter_In in H. }
    assert (Hab : tied before a b = true).
    { unfold tied. rewrite (sorted_head_first a l1 b Hs1 Hb).
      now rewrite (sorted_head_first b l2 a Hs2 Ha). }
    assert (a = b).
    { pose proof (Hties a) as H. simpl in H.
      rewrite tied_refl, Hab in H. now injection H. }
    subst b. f_equal. apply IH.
    + now inversion Hs1.
    + now inversion Hs2.
    + intros x. specialize (Hties x). simpl in Hties.
      destruct (tied before x a); [now injection Hties | exact Hties].
Qed.

(** Whatever produces a sorted list that keeps tied elements in their
    original order produces [js_sort]. *)
Lemma js_sort_unique (l l' : list A) :
  StronglySorted (fun a b => before a b = true) l' ->
  (forall x, filter (tied before x) l' = filter (tied before x) l) ->
  l' = js_sort before l.
Proof.
  intros Hs Hties. apply stable_sorted_unique; auto.
  - apply js_sort_sorted.
  - intros x. now rewrite js_sort_ties.
Qed.

End SortFacts.

(** ** The leaderboard *)

Lemma StronglySorted_weaken {A : Type} (R R' : A -> A -> Prop) (l : list A) :
  (forall a b, R a b -> R' a b) -> StronglySorted R l -> StronglySorted R' l.
Proof.
  intros HR. induction 1 as [|x l Hs IH Hall]; constructor; auto.
  eapply Forall_impl; [|exact Hall]. auto.
Qed.

Lemma by_score_desc_before (a b : Standing) :
  Qle_bool (by_score_desc a b) 0 = true <-> (snd b <= snd a)%Q.
Proof.
  unfold by_score_desc. rewrite Qle_bool_iff. split; intros; lra.
Qed.

Lemma by_score_desc_after (a b : Standing) :
  Qle_bool (by_score_desc a b) 0 = false <-> (snd a < snd b)%Q.
Proof.
  rewrite <- not_true_iff_false, by_score_desc_before. split; intros; lra.
Qed.

Lemma makeLeaderboard_perm (room : Room) :
  Permutation (map standing (JSMap.values (players room))) (makeLeaderboard room).
Proof. apply js_sort_perm. Qed.

Lemma makeLeaderboard_descending (room : Room) :
  StronglySorted (fun a b => snd b <= snd a)%Q (makeLeaderboard room).
Proof.
  unfold makeLeaderboard.
  eapply StronglySorted_weaken; [| apply js_sort_sorted ].
  - intros a b H. apply by_score_desc_before. exact H.
  - intros x y H. apply by_score_desc_after in H.
    apply by_score_desc_before. lra.
  - intros x y z H1 H2. apply by_score_desc_before in H1, H2.
    apply by_score_desc_before. lra.
Qed.

Lemma makeLeaderboard_ties (room : Room) (v : Q) :
  filter (fun e => Qeq_bool (snd e) v) (makeLeaderboard room)
  = filter (fun e => Qeq_bool (snd e) v)
           (map standing (JSMap.values (players room))).
Proof.
  apply js_sort_stable. intros x z Hx Hz.
  apply Qeq_bool_iff in Hx, Hz. apply by_score_desc_before. lra.
Qed.

(** C9.  [makeLeaderboard] returns the (name, score) pairs of the room's
    players -- all of them and nothing else -- sorted by score, highest
    first; players with the same score keep the order in which the player
    map lists them (insertion order), so the sort is stable; and the result
    is a function of the players alone, so that calling it again on the same
    players gives the same sequence. *)
Theorem makeLeaderboard_sorted_stable (room : Room) :
  Permutation (map standing (JSMap.values (players room))) (makeLeaderboard room)
  /\ StronglySorted (fun a b => snd b <= snd a)%Q (makeLeaderboard room)
  /\ (forall v : Q,
        filter (fun e => Qeq_bool (snd e) v) (makeLeaderboard room)
        = filter (fun e => Qeq_bool (snd e) v)
                 (map standing (JSMap.values (players room))))
  /\ (forall room' : Room,
        players room' = players room -> makeLeaderboard room' = makeLeaderboard room).
Proof.
  repeat split.
  - apply makeLeaderboard_perm.
  - apply makeLeaderboard_descending.
  - apply makeLeaderboard_ties.
  - intros room' H. unfold makeLeaderboard. now rewrite H.
Qed.

Lemma makeLeaderboard_sorted_stable_witness :
  makeLeaderboard tied_room = [("B", 1000%Q); ("C", 1000%Q); ("A", 500%Q)]
  /\ makeLeaderboard (with_currentQ tied_room 7) = makeLeaderboard tied_room.
Proof.
  split; [reflexivity|].
  apply (makeLeaderboard_sorted_stable tied_room). reflexivity.
Defined.

(** A late joiner with the lower score goes last and the two players tied at
    1000 stay in joining order, whatever order the map lists them in. *)
Example makeLeaderboard_late_leader :
  makeLeaderboard
    (with_players tied_room
       [("a", mkPlayer "A" 500 true); ("b", mkPlayer "B" 1000 true);
        ("c", mkPlayer "C" 1000 true)])
  = [("B", 1000%Q); ("C", 1000%Q); ("A", 500%Q)].
Proof. reflexivity. Qed.

(** ** The scoring rule *)

Lemma includes_In (key : list Z) (x : Z) : includes key x = true <-> In x key.
Proof.
  unfold includes. rewrite existsb_exists. split.
  - intros [y [Hy E]]. apply Z.eqb_eq in E. now subst.
  - intros H. exists x. split; auto. apply Z.eqb_refl.
Qed.

Lemma playerAnswers_perm (choiceIndices : ChoiceIndices) :
  Permutation (submitted choiceIndices) (playerAnswers choiceIndices).
Proof.
  destruct choiceIndices; simpl; [apply Permutation_refl | apply js_sort_perm].
Qed.

Lemma filter_perm {A : Type} (p : A -> bool) (l l' : list A) :
  Permutation l l' -> Permutation (filter p l) (filter p l').
Proof.
  induction 1 as [|x l l' H IH|x y l|l l' l'' H1 IH1 H2 IH2]; simpl.
  - constructor.
  - destruct (p x); auto.
  - destruct (p x), (p y); auto. constructor.
  - now rewrite IH1.
Qed.

Lemma filter_all {A : Type} (p : A -> bool) (l : list A) :
  (forall x, In x l -> p x = true) -> filter p l = l.
Proof.
  induction l as [|a l IH]; simpl; intros H; auto.
  rewrite (H a) by auto. f_equal. auto.
Qed.

Lemma filter_none {A : Type} (p : A -> bool) (l : list A) :
  (forall x, In x l -> p x = false) -> filter p l = [].
Proof.
  induction l as [|a l IH]; simpl; intros H; auto.
  rewrite (H a) by auto. auto.
Qed.

(** On a submission without repeated indices the rule is the one that the
    specification describes: all the correct choices and nothing else earn
    1000 points plus one point per 50 ms left. *)
Lemma scoreEarned_fully_correct (q : Question) (key answers : list Z) (left : Z) :
  correctIndices q = Some key ->
  key <> [] ->
  NoDup key -> NoDup answers ->
  (forall x, In x answers <-> In x key) ->
  scoreEarned q answers left = inject_Z (1000 + left / 50).
Proof.
  intros Hq Hne Hk Ha Hsame. unfold scoreEarned. rewrite Hq.
  destruct key as [|k0 key']; [congruence|]. cbn [List.length Nat.ltb Nat.leb].
  rewrite (filter_all (includes (k0 :: key'))).
  2:{ intros x Hx. apply includes_In, Hsame, Hx. }
  rewrite (filter_none (fun idx => negb (includes (k0 :: key') idx))).
  2:{ intros x Hx. apply negb_false_iff, includes_In, Hsame, Hx. }
  assert (Hlen : List.length answers = List.length (k0 :: key')).
  { apply Permutation_length, NoDup_Permutation; auto. }
  rewrite Hlen, Nat.eqb_refl. reflexivity.
Qed.

(** Some correct choices but not the exact correct set, again without
    repeated indices: a share of 1000 per correct choice and no bonus. *)
Lemma scoreEarned_partial (q : Question) (key answers : list Z) (left : Z) :
  correctIndices q = Some key ->
  NoDup key -> NoDup answers ->
  (exists x, In x answers /\ In x key) ->
  (exists y, In y key /\ ~ In y answers) \/ (exists z, In z answers /\ ~ In z key) ->
  scoreEarned q answers left
  = (1000 / of_length key * of_length (filter (includes key) answers))%Q.
Proof.
  intros Hq Hk Ha [x [Hxa Hxk]] Hnot. unfold scoreEarned. rewrite Hq.
  assert (Hpos : (0 <? List.length key)%nat = true).
  { destruct key; [contradiction|reflexivity]. }
  rewrite Hpos.
  assert (Hc : (0 <? List.length (filter (includes key) answers))%nat = true).
  { assert (In x (filter (includes key) answers))
      by (apply filter_In; split; auto; now apply includes_In).
    destruct (filter (includes key) answers); [contradiction|reflexivity]. }
  rewrite Hc.
  assert (Hfull :
    (List.length (filter (includes key) answers) =? List.length key)%nat
    && (List.length (filter (fun idx => negb (includes key idx)) answers) =? 0)%nat
    = false).
  { destruct Hnot as [[y [Hyk Hya]] | [z [Hza Hzk]]].
    - apply andb_false_iff. left. apply Nat.eqb_neq. intros Hlen.
      apply Hya.
      assert (Hin : incl key (filter (includes key) answers)).
      { apply NoDup_length_incl.
        - now apply NoDup_filter.
        - rewrite Hlen. apply Nat.le_refl.
        - intros w Hw. apply filter_In in Hw. now apply includes_In. }
      apply Hin in Hyk. apply filter_In in Hyk. tauto.
    - apply andb_false_iff. right. apply Nat.eqb_neq. intros Hlen.
      assert (Hin : In z (filter (fun idx => negb (includes key idx)) answers)).
      { apply filter_In. split; auto. apply negb_true_iff.
        destruct (includes key z) eqn:E; auto.
        apply includes_In in E. contradiction. }
      destruct (filter (fun idx => negb (includes key idx)) answers);
        [contradiction|discriminate]. }
  rewrite Hfull. reflexivity.
Qed.

(** Wrong extra choices do not change a partial score. *)
Lemma scoreEarned_partial_extras (q : Question) (key answers extras : list Z)
    (left : Z) :
  correctIndices q = Some key ->
  NoDup key -> NoDup (answers ++ extras) ->
  (exists x, In x answers /\ In x key) ->
  (exists z, In z answers /\ ~ In z key) ->
  (forall z, In z extras -> ~ In z key) ->
  scoreEarned q (answers ++ extras) left = scoreEarned q answers left.
Proof.
  intros Hq Hk Hnd [x [Hxa Hxk]] [z [Hza Hzk]] Hex.
  rewrite (scoreEarned_partial q key (answers ++ extras) left); auto.
  - rewrite (scoreEarned_partial q key answers left); auto.
    + rewrite filter_app.
      rewrite (filter_none (includes key) extras).
      * now rewrite app_nil_r.
      * intros w Hw. destruct (includes key w) eqn:E; auto.
        apply includes_In in E. now apply Hex in Hw.
    + now apply NoDup_app_remove_r in Hnd.
    + exists x. auto.
    + right. exists z. auto.
  - exists x. split; auto. apply in_or_app. auto.
  - right. exists z. split; auto. apply in_or_app. auto.
Qed.

(** The two scenarios of the specification. *)
Example scoreEarned_single_5000 : scoreEarned q_single [1] 5000 = 1100%Q.
Proof. reflexivity. Qed.

Example scoreEarned_half : (scoreEarned q_multi [0%Z] 5000%Z == 500)%Q.
Proof. reflexivity. Qed.

Example scoreEarned_wrong : scoreEarned (mkQuestion "" [] (Some [0]) None) [1] 5000 = 0%Q.
Proof. reflexivity. Qed.

(** ** [player:answer] *)

Lemma score_of_set (tbl : Rooms) (roomCode : RoomCode) (socket : SocketId)
    (room : Room) (p : Player) :
  score_of (JSMap.set roomCode
              (with_players room (JSMap.set socket p (players room))) tbl)
           roomCode socket
  = Some (score p).
Proof.
  unfold score_of. rewrite JSMapFacts.get_set_same. simpl.
  now rewrite JSMapFacts.get_set_same.
Qed.

(** An accepted submission adds [scoreEarned] to the player's score. *)
Lemma on_answer_accepted (socket : SocketId) (roomCode : RoomCode)
    (choiceIndices : ChoiceIndices) (now : Z) (tbl : Rooms)
    (room : Room) (player : Player) (q : Question) :
  JSMap.get roomCode tbl = Some room ->
  JSMap.get socket (players room) = Some player ->
  answered player = false ->
  current_question room = Some q ->
  let r := on_answer socket roomCode choiceIndices now tbl in
  completion r = Returned
  /\ score_of (store r) roomCode socket
     = Some (score player
             + scoreEarned q (playerAnswers choiceIndices) (timeLeftMs room now))%Q
  /\ answered_of (store r) roomCode socket = Some true.
Proof.
  intros Hroom Hplayer Hans Hq. unfold on_answer.
  rewrite Hroom, Hplayer, Hans, Hq. simpl. split; [reflexivity|]. split.
  - now rewrite score_of_set.
  - unfold answered_of. rewrite JSMapFacts.get_set_same. simpl.
    now rewrite JSMapFacts.get_set_same.
Qed.

(** C1, as amended.  Take a [player:answer] that the handler accepts (the
    room exists, the connection has a player in it who has not answered, a
    question is current) and whose submitted indices, none of them listed
    twice, are exactly the correct choices of the question (a non-empty set,
    listed without repetition).  It adds 1000 + floor(left / 50) to the
    player's score, where [left] is the time to the deadline in
    milliseconds, or 0 when the deadline has passed. *)
Theorem answer_fully_correct (socket : SocketId) (roomCode : RoomCode)
    (choiceIndices : ChoiceIndices) (now : Z) (tbl : Rooms)
    (room : Room) (player : Player) (q : Question) (key : list Z) (deadline : Z) :
  JSMap.get roomCode tbl = Some room ->
  JSMap.get socket (players room) = Some player ->
  answered player = false ->
  current_question room = Some q ->
  endsAt room = Some deadline ->
  correctIndices q = Some key ->
  key <> [] -> NoDup key ->
  NoDup (submitted choiceIndices) ->
  (forall x, In x (submitted choiceIndices) <-> In x key) ->
  score_of (store (on_answer socket roomCode choiceIndices now tbl)) roomCode socket
  = Some (score player + inject_Z (1000 + Z.max 0 (deadline - now) / 50))%Q.
Proof.
  intros Hroom Hplayer Hans Hq Hend Hkey Hne Hk Hi Hsame.
  destruct (on_answer_accepted socket roomCode choiceIndices now tbl
              room player q Hroom Hplayer Hans Hq) as (_ & Hs & _).
  rewrite Hs. do 2 f_equal.
  rewrite (scoreEarned_fully_correct q key); auto.
  - unfold timeLeftMs. now rewrite Hend.
  - eapply Permutation_NoDup; [apply playerAnswers_perm | exact Hi].
  - intros x. rewrite <- Hsame. split; apply Permutation_in;
      [symmetry|]; apply playerAnswers_perm.
Qed.

(** The scenario of the specification: correct set {1}, pat submits {1}
    with 5000 ms left and earns 1100. *)
Lemma answer_fully_correct_witness :
  score_of (rooms single_running) "ABCD" "P" = Some 0%Q
  /\ score_of (store (on_answer "P" "ABCD" (choice_array [1]) 15000
                                (rooms single_running))) "ABCD" "P"
     = Some (0 + inject_Z (1000 + Z.max 0 (20000 - 15000) / 50))%Q
  /\ (0 + inject_Z (1000 + Z.max 0 (20000 - 15000) / 50) == 1100)%Q.
Proof.
  split; [reflexivity|]. split; [|reflexivity].
  apply (answer_fully_correct "P" "ABCD" (choice_array [1]) 15000
           (rooms single_running) abcd_running (mkPlayer "pat" 0 false)
           q_single [1] 20000); try reflexivity.
  - discriminate.
  - repeat constructor. simpl. tauto.
  - repeat constructor. simpl. tauto.
Defined.

(** C1 as the specification states it fails: the handler does not
    deduplicate the submitted indices, it counts them.  In room ABCD the
    running question has the correct set {1} and 5000 ms are left; pat
    submits [1, 1], whose set of choices is exactly {1}.  The filter keeps
    both copies, two is not the size of the correct set, so the answer is
    not taken as fully correct and earns the partial credit
    1000 / 1 * 2 = 2000 instead of 1000 + 5000 / 50 = 1100. *)
Lemma answer_repeated_choice_not_full :
  let r := handle (player_answer "P" "ABCD" (choice_array [1; 1]) 15000)
                  single_running in
  JSMap.get "ABCD" (rooms single_running) = Some abcd_running
  /\ current_question abcd_running = Some q_single
  /\ timeLeftMs abcd_running 15000 = 5000
  /\ correctIndices q_single = Some [1]
  /\ nodup Z.eq_dec [1; 1] = [1]
  /\ score_of (rooms single_running) "ABCD" "P" = Some 0%Q
  /\ completion r = Returned
  /\ score_of (store r) "ABCD" "P" = Some 2000%Q
  /\ ~ (2000 == 0 + inject_Z (1000 + 5000 / 50))%Q.
Proof.
  cbv zeta. repeat split; try reflexivity.
  intros H. discriminate H.
Qed.

(** Partial credit at the level of the handler. *)
Lemma on_answer_partial (socket : SocketId) (roomCode : RoomCode)
    (choiceIndices : ChoiceIndices) (now : Z) (tbl : Rooms)
    (room : Room) (player : Player) (q : Question) (key : list Z) :
  JSMap.get roomCode tbl = Some room ->
  JSMap.get socket (players room) = Some player ->
  answered player = false ->
  current_question room = Some q ->
  correctIndices q = Some key ->
  NoDup key ->
  NoDup (submitted choiceIndices) ->
  (exists x, In x (submitted choiceIndices) /\ In x key) ->
  (exists y, In y key /\ ~ In y (submitted choiceIndices))
  \/ (exists z, In z (submitted choiceIndices) /\ ~ In z key) ->
  score_of (store (on_answer socket roomCode choiceIndices now tbl)) roomCode socket
  = Some (score player
          + 1000 / of_length key
            * of_length (filter (includes key) (submitted choiceIndices)))%Q.
Proof.
  intros Hroom Hplayer Hans Hq Hkey Hk Hi [x [Hx Hxk]] Hnot.
  destruct (on_answer_accepted socket roomCode choiceIndices now tbl
              room player q Hroom Hplayer Hans Hq) as (_ & Hs & _).
  rewrite Hs. do 2 f_equal.
  assert (Hperm := playerAnswers_perm choiceIndices).
  assert (Hin : forall w, In w (playerAnswers choiceIndices)
                          <-> In w (submitted choiceIndices)).
  { intros w. split; apply Permutation_in; [symmetry|]; exact Hperm. }
  rewrite (scoreEarned_partial q key); auto.
  - unfold of_length.
    now rewrite (Permutation_length (filter_perm (includes key) _ _ Hperm)).
  - eapply Permutation_NoDup; [exact Hperm | exact Hi].
  - exists x. split; auto. now apply Hin.
  - destruct Hnot as [[y [Hy Hny]] | [z [Hz Hnz]]].
    + left. exists y. split; auto. now rewrite Hin.
    + right. exists z. split; auto. now apply Hin.
Qed.

(** C3, as amended.  Take a [player:answer] that the handler accepts and
    whose submitted indices, none of them listed twice, contain at least
    one correct choice of the question but are not exactly its correct set
    (a correct choice is missing, or a wrong one is present); the correct
    choices of the question are listed without repetition.  It adds
    (1000 / n) * k to the player's score, where n is the number of correct
    choices of the question and k the number of them that were submitted.
    No time enters, and neither does the number of wrong choices: a
    submission with the same correct choices and any wrong ones, sent at
    any time, would have earned the same. *)
Theorem answer_partial_credit (socket : SocketId) (roomCode : RoomCode)
    (choiceIndices : ChoiceIndices) (now : Z) (tbl : Rooms)
    (room : Room) (player : Player) (q : Question) (key : list Z) :
  JSMap.get roomCode tbl = Some room ->
  JSMap.get socket (players room) = Some player ->
  answered player = false ->
  current_question room = Some q ->
  correctIndices q = Some key ->
  NoDup key ->
  NoDup (submitted choiceIndices) ->
  (exists x, In x (submitted choiceIndices) /\ In x key) ->
  (exists y, In y key /\ ~ In y (submitted choiceIndices))
  \/ (exists z, In z (submitted choiceIndices) /\ ~ In z key) ->
  score_of (store (on_answer socket roomCode choiceIndices now tbl)) roomCode socket
  = Some (score player
          + 1000 / of_length key
            * of_length (filter (includes key) (submitted choiceIndices)))%Q
  /\ (forall (choiceIndices' : ChoiceIndices) (now' : Z),
        NoDup (submitted choiceIndices') ->
        (forall x, In x key ->
                   (In x (submitted choiceIndices') <-> In x (submitted choiceIndices))) ->
        (exists z, In z (submitted choiceIndices') /\ ~ In z key) ->
        score_of (store (on_answer socket roomCode choiceIndices' now' tbl))
                 roomCode socket
        = score_of (store (on_answer socket roomCode choiceIndices now tbl))
                   roomCode socket).
Proof.
  intros Hroom Hplayer Hans Hq Hkey Hk Hi Hsome Hnot.
  assert (Hone := on_answer_partial socket roomCode choiceIndices now tbl room
                    player q key Hroom Hplayer Hans Hq Hkey Hk Hi Hsome Hnot).
  split; [exact Hone|].
  intros choiceIndices' now' Hi' Hsame Hwrong. rewrite Hone.
  rewrite (on_answer_partial socket roomCode choiceIndices' now' tbl room
             player q key); auto.
  - do 3 f_equal. unfold of_length. do 2 f_equal.
    apply Permutation_length, NoDup_Permutation; try now apply NoDup_filter.
    intros x. rewrite !filter_In, !includes_In. split; intros [Hx Hxk]; split; auto;
      now apply (Hsame x Hxk).
  - destruct Hsome as [x [Hx Hxk]]. exists x. split; auto. now apply Hsame.
Qed.

(** The scenario of the specification: correct set {0, 2}, pat submits {0}
    and earns 500; had pat added the wrong choice 1, two seconds later, the
    credit would have been the same. *)
Lemma answer_partial_credit_witness :
  (exists s, score_of (store (on_answer "P" "ABCD" (choice_array [0]) 8000
                                        (rooms double_second))) "ABCD" "P" = Some s
             /\ (s == 500)%Q)
  /\ score_of (store (on_answer "P" "ABCD" (choice_array [1; 0]) 10000
                                (rooms double_second))) "ABCD" "P"
     = score_of (store (on_answer "P" "ABCD" (choice_array [0]) 8000
                                  (rooms double_second))) "ABCD" "P".
Proof.
  assert (Hkey : NoDup [0; 2]).
  { repeat constructor; simpl; intuition discriminate. }
  assert (Hpat : NoDup (submitted (choice_array [0]))).
  { repeat constructor. simpl. tauto. }
  assert (Hextra : NoDup (submitted (choice_array [1; 0]))).
  { repeat constructor; simpl; intuition discriminate. }
  destruct (answer_partial_credit "P" "ABCD" (choice_array [0]) 8000
              (rooms double_second) abcd_second (mkPlayer "pat" 0 false)
              q_multi [0; 2] eq_refl eq_refl eq_refl eq_refl eq_refl Hkey Hpat)
    as [Hone Hsame].
  { exists 0. simpl. tauto. }
  { left. exists 2. simpl. intuition discriminate. }
  split.
  - eexists. split; [exact Hone | reflexivity].
  - apply (Hsame (choice_array [1; 0]) 10000 Hextra).
    + simpl. intros x [<-|[<-|[]]]; intuition discriminate.
    + exists 1. simpl. intuition discriminate.
Defined.

(** C3 as the specification states it fails, for the same reason as C1.
    The running question has the correct set {0, 2}; 17000 ms are left.
    pat submits [0, 0]: one of the two correct choices, so the rule of the
    specification gives 1000 / 2 * 1 = 500.  The two copies make the count
    of correct choices equal to the size of the correct set, the answer
    passes for fully correct and earns 1000 + 17000 / 50 = 1340.  ron
    submits [0, 0, 1]: one correct and one wrong choice; the count of
    correct choices is two and the credit 1000 / 2 * 2 = 1000. *)
Lemma answer_repeated_choice_not_partial :
  let pat := handle (player_answer "P" "ABCD" (choice_array [0; 0]) 8000)
                    double_second in
  let ron := handle (player_answer "R" "ABCD" (choice_array [0; 0; 1]) 8000)
                    double_second in
  JSMap.get "ABCD" (rooms double_second) = Some abcd_second
  /\ current_question abcd_second = Some q_multi
  /\ timeLeftMs abcd_second 8000 = 17000
  /\ correctIndices q_multi = Some [0; 2]
  /\ nodup Z.eq_dec [0; 0] = [0]
  /\ nodup Z.eq_dec [0; 0; 1] = [0; 1]
  /\ score_of (rooms double_second) "ABCD" "P" = Some 0%Q
  /\ score_of (rooms double_second) "ABCD" "R" = Some 0%Q
  /\ score_of (store pat) "ABCD" "P" = Some 1340%Q
  /\ (exists s, score_of (store ron) "ABCD" "R" = Some s /\ (s == 1000)%Q)
  /\ ~ (1340 == 0 + 1000 / 2 * 1)%Q
  /\ ~ (1000 == 0 + 1000 / 2 * 1)%Q.
Proof.
  cbv zeta. repeat split; try reflexivity;
    try (eexists; split; reflexivity); intros H; discriminate H.
Qed.

(** What [player:answer] does when the room has no current question (the
    index is -1 or past the end) and the player on the socket has not
    answered: [q] is [undefined], the handler sets [answered] and then
    reads [q.correctIndices]. *)
Lemma on_answer_no_question (socket : SocketId) (roomCode : RoomCode)
    (choiceIndices : ChoiceIndices) (now : Z) (tbl : Rooms)
    (room : Room) (player : Player) :
  JSMap.get roomCode tbl = Some room ->
  JSMap.get socket (players room) = Some player ->
  answered player = false ->
  current_question room = None ->
  let r := on_answer socket roomCode choiceIndices now tbl in
  completion r = TypeError
  /\ effects r = []
  /\ score_of (store r) roomCode socket = Some (score player)
  /\ answered_of (store r) roomCode socket = Some true.
Proof.
  intros Hroom Hplayer Hans Hq. unfold on_answer.
  rewrite Hroom, Hplayer, Hans, Hq. simpl. repeat split.
  - now rewrite score_of_set.
  - unfold answered_of. rewrite JSMapFacts.get_set_same. simpl.
    now rewrite JSMapFacts.get_set_same.
Qed.

(** C4.  Two runs in which [player:answer] arrives while the room has no
    current question.  In the first the host has gone past the only
    question (the game is over, the index is 1 in a quiz of length 1) and
    pat, who had not answered it, submits a choice; in the second pat
    submits before the host has started any question (the index is -1).
    Both times a [TypeError] escapes the handler, after it has set pat's
    [answered] flag; nothing is sent and no score changes. *)
Theorem answer_without_question_throws :
  let late := handle (player_answer "P" "ABCD" (one_choice 1) 22000) single_over in
  let early := handle (player_answer "P" "ABCD" (one_choice 1) 100)
                      (lobby (mkQuiz [q_single])) in
  (exists room,
      JSMap.get "ABCD" (rooms single_over) = Some room
      /\ currentQ room = 1
      /\ List.length (questions (quiz room)) = 1%nat)
  /\ completion late = TypeError
  /\ effects late = []
  /\ answered_of (rooms single_over) "ABCD" "P" = Some false
  /\ answered_of (store late) "ABCD" "P" = Some true
  /\ score_of (store late) "ABCD" "P" = score_of (rooms single_over) "ABCD" "P"
  /\ (exists room,
      JSMap.get "ABCD" (rooms (lobby (mkQuiz [q_single]))) = Some room
      /\ currentQ room = -1)
  /\ completion early = TypeError
  /\ effects early = []
  /\ answered_of (store early) "ABCD" "P" = Some true.
Proof.
  cbv zeta. split; [eexists; repeat split; reflexivity|].
  repeat split; try reflexivity.
  eexists; repeat split; reflexivity.
Qed.

(** C5.  A [player:answer] from a connection whose player has [answered]
    set returns at once: the table (hence every score) is what it was,
    nothing is sent -- no acknowledgement, no leaderboard -- and nothing is
    thrown. *)
Theorem answer_twice_ignored (socket : SocketId) (roomCode : RoomCode)
    (choiceIndices : ChoiceIndices) (now : Z) (tbl : Rooms)
    (room : Room) (player : Player) :
  JSMap.get roomCode tbl = Some room ->
  JSMap.get socket (players room) = Some player ->
  answered player = true ->
  on_answer socket roomCode choiceIndices now tbl = done tbl [].
Proof.
  intros Hroom Hplayer Hans. unfold on_answer.
  now rewrite Hroom, Hplayer, Hans.
Qed.

Lemma answer_twice_ignored_witness :
  answered_of (rooms single_answered) "ABCD" "P" = Some true
  /\ on_answer "P" "ABCD" (choice_array [0; 1]) 16000 (rooms single_answered)
     = done (rooms single_answered) [].
Proof.
  split; [reflexivity|].
  eapply answer_twice_ignored; reflexivity.
Defined.

(** ** [player:join] *)

(** C10.  A [player:join] on a connection that already has a player in the
    room overwrites that player's record with a fresh one: the new name,
    score 0 and [answered] false.  The other players and the order of the
    map are untouched. *)
Theorem join_again_resets (socket : SocketId) (roomCode : RoomCode)
    (name : string) (tbl : Rooms) (room : Room) (old : Player) :
  JSMap.get roomCode tbl = Some room ->
  JSMap.get socket (players room) = Some old ->
  let r := on_join socket roomCode name tbl in
  completion r = Returned
  /\ exists room',
      JSMap.get roomCode (store r) = Some room'
      /\ JSMap.get socket (players room') = Some (mkPlayer name 0 false)
      /\ (forall other, other <> socket ->
            JSMap.get other (players room') = JSMap.get other (players room))
      /\ JSMap.keys (players room') = JSMap.keys (players room)
      /\ currentQ room' = currentQ room.
Proof.
  intros Hroom Hold. unfold on_join. rewrite Hroom. simpl.
  split; [reflexivity|]. eexists. split; [apply JSMapFacts.get_set_same|].
  simpl. repeat split.
  - apply JSMapFacts.get_set_same.
  - intros other Hne. apply JSMapFacts.get_set_other. congruence.
  - rewrite JSMapFacts.keys_set. unfold JSMap.has. now rewrite Hold.
Qed.

Lemma join_again_resets_witness :
  score_of (rooms single_answered) "ABCD" "P" = Some 1100%Q
  /\ answered_of (rooms single_answered) "ABCD" "P" = Some true
  /\ score_of (store (on_join "P" "ABCD" "pat" (rooms single_answered))) "ABCD" "P"
     = Some 0%Q
  /\ answered_of (store (on_join "P" "ABCD" "pat" (rooms single_answered))) "ABCD" "P"
     = Some false.
Proof.
  split; [reflexivity|]. split; [reflexivity|].
  destruct (join_again_resets "P" "ABCD" "pat" (rooms single_answered)
              (mkRoom 0 "H" "u-1" (mkQuiz [q_single])
                 [("P", mkPlayer "pat" 1100 true); ("R", mkPlayer "ron" 0 false)]
                 0 (Some 20000))
              (mkPlayer "pat" 1100 true) eq_refl eq_refl)
    as (_ & room' & Hroom' & Hp & _).
  unfold score_of, answered_of. rewrite Hroom', Hp. split; reflexivity.
Defined.

(** ** [endQuestion] *)

(** C2, as amended.  When the timer fires, [endQuestion] looks the room up
    again.  If the room is gone it does nothing: nothing is sent and
    nothing is thrown.  If the room is there and its index points at a
    question, it sends the room's group the correct choices of that
    question -- the one that is current when the timer fires, whichever
    question the timer was set for -- and the leaderboard of the moment. *)
Theorem endQuestion_fires (roomCode : RoomCode) (tbl : Rooms) :
  (JSMap.get roomCode tbl = None -> endQuestion roomCode tbl = done tbl [])
  /\ (forall room q,
        JSMap.get roomCode tbl = Some room ->
        current_question room = Some q ->
        endQuestion roomCode tbl
        = done tbl [Emit roomCode
                         (question_end (correctIndices q) (makeLeaderboard room))]).
Proof.
  unfold endQuestion. split.
  - intros ->. reflexivity.
  - intros room q -> ->. reflexivity.
Qed.

Lemma endQuestion_fires_witness :
  endQuestion "WXYZ" (rooms single_running) = done (rooms single_running) []
  /\ endQuestion "ABCD" (rooms single_running)
     = done (rooms single_running)
            [Emit "ABCD" (question_end (Some [1]) [("pat", 0%Q); ("ron", 0%Q)])].
Proof.
  split.
  - apply (proj1 (endQuestion_fires "WXYZ" (rooms single_running))). reflexivity.
  - apply (proj2 (endQuestion_fires "ABCD" (rooms single_running))
             (mkRoom 0 "H" "u-1" (mkQuiz [q_single])
                [("P", mkPlayer "pat" 0 false); ("R", mkPlayer "ron" 0 false)]
                0 (Some 20000))
             q_single);
      reflexivity.
Defined.

(** C2 as the specification states it fails.  The host starts question 0 at
    time 0, which sets a timer for 20200 ms, and moves on to question 1 at
    5000 ms.  When the timer of question 0 fires, question 0 is no longer
    current, and yet [endQuestion] broadcasts: it sends the correct choices
    of question 1, which is still running. *)
Lemma endQuestion_stale_timer_broadcasts :
  effects (handle (host_next_question "H" "ABCD" 0)
                  (lobby (mkQuiz [q_single; q_multi])))
  = [Emit "ABCD" (question_start 0 "2 + 2 ?" ["3"; "4"] 20000 (Some false));
     SetTimeout 20200 "ABCD"]
  /\ (exists room,
        JSMap.get "ABCD" (rooms double_first) = Some room /\ currentQ room = 0)
  /\ (exists room,
        JSMap.get "ABCD" (rooms double_second) = Some room
        /\ currentQ room = 1 /\ endsAt room = Some 25000)
  /\ endQuestion "ABCD" (rooms double_second)
     = done (rooms double_second)
            [Emit "ABCD" (question_end (Some [0; 2]) [("pat", 0%Q); ("ron", 0%Q)])]
  /\ effects (endQuestion "ABCD" (rooms double_second)) <> [].
Proof.
  split; [reflexivity|].
  split; [eexists; split; reflexivity|].
  split; [eexists; repeat split; reflexivity|].
  split; [reflexivity|]. discriminate.
Qed.

(** When the index has run past the last question the callback throws. *)
Example endQuestion_after_game_over :
  endQuestion "ABCD" (rooms single_over)
  = mkResult TypeError (rooms single_over) [].
Proof. reflexivity. Qed.

(** ** [disconnect] *)

Section Disconnect.
Variable socket : SocketId.

Lemma disconnect_entry_sends (acc : Rooms) (effs : list Effect)
    (entry : RoomCode * Room) :
  snd (disconnect_entry socket (acc, effs) entry)
  = (effs ++ disconnect_sends socket entry)%list.
Proof.
  destruct entry as [code room]. unfold disconnect_entry, disconnect_sends. simpl.
  destruct (String.eqb (hostId room) socket); auto.
  destruct (JSMap.has socket (players room)); simpl; auto.
  now rewrite app_nil_r.
Qed.

Lemma disconnect_fold_sends (l : Rooms) (acc : Rooms) (effs : list Effect) :
  snd (fold_left (disconnect_entry socket) l (acc, effs))
  = (effs ++ flat_map (disconnect_sends socket) l)%list.
Proof.
  revert acc effs. induction l as [|entry l IH]; intros acc effs.
  - simpl. now rewrite app_nil_r.
  - cbn [fold_left flat_map].
    destruct (disconnect_entry socket (acc, effs) entry) as [acc1 effs1] eqn:E.
    rewrite IH. apply (f_equal snd) in E. rewrite disconnect_entry_sends in E.
    simpl in E. subst effs1. now rewrite <- app_assoc.
Qed.

(** The loop touches an entry of the table only while it visits it. *)
Lemma disconnect_fold_lookup (l : Rooms) (acc : Rooms) (effs : list Effect)
    (code : RoomCode) :
  JSMap.wf l ->
  JSMap.get code (fst (fold_left (disconnect_entry socket) l (acc, effs)))
  = match JSMap.get code l with
    | None => JSMap.get code acc
    | Some room =>
        if String.eqb (hostId room) socket then None
        else if JSMap.has socket (players room) then
          Some (with_players room (JSMap.delete socket (players room)))
        else JSMap.get code acc
    end.
Proof.
  revert acc effs. induction l as [|[c room] l IH]; intros acc effs Hwf; simpl; auto.
  apply JSMapFacts.wf_tail in Hwf. destruct Hwf as [Hc Hwf].
  destruct (String.eqb code c) eqn:E.
  - apply String.eqb_eq in E. subst c.
    destruct (String.eqb (hostId room) socket);
      [|destruct (JSMap.has socket (players room))];
      rewrite IH, Hc by assumption.
    + apply JSMapFacts.get_delete_same.
    + apply JSMapFacts.get_set_same.
    + reflexivity.
  - apply String.eqb_neq in E.
    destruct (String.eqb (hostId room) socket);
      [|destruct (JSMap.has socket (players room))];
      rewrite IH by assumption.
    + rewrite JSMapFacts.get_delete_other by congruence. reflexivity.
    + rewrite JSMapFacts.get_set_other by congruence. reflexivity.
    + reflexivity.
Qed.

Lemma disconnect_fold_wf (l : Rooms) (acc : Rooms) (effs : list Effect) :
  JSMap.wf acc ->
  JSMap.wf (fst (fold_left (disconnect_entry socket) l (acc, effs))).
Proof.
  revert acc effs. induction l as [|[c room] l IH]; intros acc effs Hwf; simpl; auto.
  destruct (String.eqb (hostId room) socket);
    [|destruct (JSMap.has socket (players room))]; apply IH; auto.
  - now apply JSMapFacts.wf_delete.
  - now apply JSMapFacts.wf_set.
Qed.

Lemma on_disconnect_fold (tbl : Rooms) :
  on_disconnect socket tbl
  = done (fst (fold_left (disconnect_entry socket) tbl (tbl, [])))
         (snd (fold_left (disconnect_entry socket) tbl (tbl, []))).
Proof.
  unfold on_disconnect.
  now destruct (fold_left (disconnect_entry socket) tbl (tbl, [])).
Qed.

Lemma on_disconnect_sends (tbl : Rooms) :
  effects (on_disconnect socket tbl) = flat_map (disconnect_sends socket) tbl.
Proof. rewrite on_disconnect_fold. simpl. now rewrite disconnect_fold_sends. Qed.

Lemma on_disconnect_lookup (tbl : Rooms) (code : RoomCode) :
  JSMap.wf tbl ->
  JSMap.get code (store (on_disconnect socket tbl))
  = match JSMap.get code tbl with
    | None => None
    | Some room => disconnect_leaves socket room
    end.
Proof.
  intros Hwf. rewrite on_disconnect_fold. simpl.
  rewrite disconnect_fold_lookup by assumption.
  unfold disconnect_leaves.
  now destruct (JSMap.get code tbl) as [room|] eqn:E.
Qed.

Lemma on_disconnect_wf (tbl : Rooms) :
  JSMap.wf tbl -> JSMap.wf (store (on_disconnect socket tbl)).
Proof.
  intros Hwf. rewrite on_disconnect_fold. simpl. now apply disconnect_fold_wf.
Qed.
End Disconnect.

(** C7.  On [disconnect], for every room of the table: if the connection is
    the room's host, the room is deleted -- a lookup of its code in the
    table that the handler leaves finds nothing -- and [game:closed] goes to
    the room's group; if the connection is not the host but one of the
    room's players, the room stays, only that player is removed from it, and
    the list of the remaining players goes to the room's group; a room that
    knows the connection neither as host nor as player is left as it was. *)
Theorem disconnect_host_or_player (socket : SocketId) (roomCode : RoomCode)
    (tbl : Rooms) (room : Room) :
  JSMap.wf tbl ->
  JSMap.get roomCode tbl = Some room ->
  let r := on_disconnect socket tbl in
  completion r = Returned
  /\ (hostId room = socket ->
        JSMap.get roomCode (store r) = None
        /\ In (Emit roomCode game_closed) (effects r))
  /\ (hostId room <> socket -> JSMap.has socket (players room) = true ->
        let room' := with_players room (JSMap.delete socket (players room)) in
        JSMap.get roomCode (store r) = Some room'
        /\ JSMap.get socket (players room') = None
        /\ (forall other, other <> socket ->
              JSMap.get other (players room') = JSMap.get other (players room))
        /\ In (Emit roomCode (host_players_update (JSMap.values (players room'))))
              (effects r))
  /\ (hostId room <> socket -> JSMap.has socket (players room) = false ->
        JSMap.get roomCode (store r) = Some room).
Proof.
  intros Hwf Hroom r.
  assert (Hin : In (roomCode, room) tbl) by now apply JSMapFacts.get_In.
  assert (Hlook := on_disconnect_lookup socket tbl roomCode Hwf).
  rewrite Hroom in Hlook. unfold disconnect_leaves in Hlook.
  assert (Hsends := on_disconnect_sends socket tbl).
  subst r. split; [now rewrite on_disconnect_fold|].
  split; [|split].
  - intros Hhost. apply String.eqb_eq in Hhost. split.
    + rewrite Hlook. now rewrite Hhost.
    + rewrite Hsends. apply in_flat_map. exists (roomCode, room). split; auto.
      unfold disconnect_sends. simpl. rewrite Hhost. now left.
  - intros Hhost Hhas. apply String.eqb_neq in Hhost. cbv zeta.
    split; [|split; [|split]].
    + rewrite Hlook. now rewrite Hhost, Hhas.
    + simpl. apply JSMapFacts.get_delete_same.
    + intros other Hne. simpl. apply JSMapFacts.get_delete_other. congruence.
    + rewrite Hsends. apply in_flat_map. exists (roomCode, room). split; auto.
      unfold disconnect_sends. simpl. rewrite Hhost, Hhas. now left.
  - intros Hhost Hhas. apply String.eqb_neq in Hhost.
    rewrite Hlook. now rewrite Hhost, Hhas.
Qed.

Lemma disconnect_host_or_player_witness :
  JSMap.get "ABCD" (store (on_disconnect "H" (rooms single_answered))) = None
  /\ In (Emit "ABCD" game_closed) (effects (on_disconnect "H" (rooms single_answered)))
  /\ score_of (store (on_disconnect "P" (rooms single_answered))) "ABCD" "P" = None
  /\ score_of (store (on_disconnect "P" (rooms single_answered))) "ABCD" "R"
     = Some 0%Q.
Proof.
  assert (Hwf : JSMap.wf (rooms single_answered)).
  { repeat constructor. simpl. tauto. }
  pose (room := mkRoom 0 "H" "u-1" (mkQuiz [q_single])
                  [("P", mkPlayer "pat" 1100 true); ("R", mkPlayer "ron" 0 false)]
                  0 (Some 20000)).
  destruct (disconnect_host_or_player "H" "ABCD" (rooms single_answered) room
              Hwf eq_refl) as (_ & Hhost & _).
  destruct (disconnect_host_or_player "P" "ABCD" (rooms single_answered) room
              Hwf eq_refl) as (_ & _ & Hplayer & _).
  destruct (Hhost eq_refl) as [Hgone Hclosed].
  assert (Hne : hostId room <> "P") by discriminate.
  destruct (Hplayer Hne eq_refl) as (Hleft & _).
  split; [exact Hgone|]. split; [exact Hclosed|].
  unfold score_of. rewrite Hleft. split; reflexivity.
Defined.

(** ** Runs of the server *)

(** A lookup in the table written by a handler that stored [r1] under [rc]. *)
Ltac lookup_written H :=
  match type of H with
  | JSMap.get ?code (JSMap.set ?rc ?r1 ?tbl) = Some ?room' =>
      let Hne := fresh "Hne" in
      destruct (string_dec rc code) as [->|Hne];
      [ rewrite JSMapFacts.get_set_same in H; injection H as <-
      | rewrite JSMapFacts.get_set_other in H by assumption ]
  end.

Lemma evolves_same (e : Event) (code : RoomCode) (room : Room) :
  evolves e code room room.
Proof. unfold evolves. auto. Qed.

Lemma evolves_players (e : Event) (code : RoomCode) (room : Room)
    (ps : JSMap.t Player) :
  evolves e code room (with_players room ps).
Proof. unfold evolves. simpl. auto. Qed.

Create HintDb rooms.
#[local] Hint Resolve evolves_same evolves_players : rooms.

Lemma on_join_origin (socket : SocketId) (roomCode : RoomCode) (name : string)
    (tbl : Rooms) (code : RoomCode) (room' : Room) :
  JSMap.get code (store (on_join socket roomCode name tbl)) = Some room' ->
  exists room,
    JSMap.get code tbl = Some room
    /\ evolves (player_join socket roomCode name) code room room'.
Proof.
  unfold on_join. destruct (JSMap.get roomCode tbl) as [room|] eqn:E; simpl; intros H.
  - lookup_written H; eauto with rooms.
  - eauto with rooms.
Qed.

Lemma on_answer_origin (socket : SocketId) (roomCode : RoomCode)
    (choiceIndices : ChoiceIndices) (now : Z)
    (tbl : Rooms) (code : RoomCode) (room' : Room) :
  JSMap.get code (store (on_answer socket roomCode choiceIndices now tbl)) = Some room' ->
  exists room,
    JSMap.get code tbl = Some room
    /\ evolves (player_answer socket roomCode choiceIndices now) code room room'.
Proof.
  unfold on_answer.
  destruct (JSMap.get roomCode tbl) as [room|] eqn:E; simpl; [|eauto with rooms].
  destruct (JSMap.get socket (players room)) as [player|]; simpl; [|eauto with rooms].
  destruct (answered player); simpl; [eauto with rooms|].
  destruct (current_question room); simpl; intros H;
    lookup_written H; eauto with rooms.
Qed.

Lemma on_next_question_origin (socket : SocketId) (roomCode : RoomCode) (now : Z)
    (tbl : Rooms) (code : RoomCode) (room' : Room) :
  JSMap.get code (store (on_next_question socket roomCode now tbl)) = Some room' ->
  exists room,
    JSMap.get code tbl = Some room
    /\ evolves (host_next_question socket roomCode now) code room room'.
Proof.
  unfold on_next_question.
  destruct (JSMap.get roomCode tbl) as [room|] eqn:E; simpl; [|eauto with rooms].
  destruct (String.eqb socket (hostId room)) eqn:Hhost; simpl; [|eauto with rooms].
  apply String.eqb_eq in Hhost. subst socket.
  destruct (Z.of_nat (List.length (questions (quiz room))) <=? currentQ room + 1);
    [|destruct (current_question _)]; simpl; intros H;
    lookup_written H; eauto with rooms;
    (eexists; split; [eassumption|]);
    unfold evolves; simpl; intuition eauto.
Qed.

Lemma endQuestion_store (roomCode : RoomCode) (tbl : Rooms) :
  store (endQuestion roomCode tbl) = tbl.
Proof.
  unfold endQuestion. destruct (JSMap.get roomCode tbl) as [room|]; auto.
  destruct (current_question room); auto.
Qed.

Lemma on_disconnect_origin (socket : SocketId)
    (tbl : Rooms) (code : RoomCode) (room' : Room) :
  JSMap.wf tbl ->
  JSMap.get code (store (on_disconnect socket tbl)) = Some room' ->
  exists room,
    JSMap.get code tbl = Some room /\ evolves (disconnect socket) code room room'.
Proof.
  intros Hwf. rewrite on_disconnect_lookup by assumption.
  destruct (JSMap.get code tbl) as [room|]; [|discriminate].
  unfold disconnect_leaves.
  destruct (String.eqb (hostId room) socket); [discriminate|].
  destruct (JSMap.has socket (players room)); intros [= <-]; eauto with rooms.
Qed.

(** Where a room of the table after one event comes from: it is a room of
    the table before, under the same code, or the room that the event has
    just created. *)
Lemma step_origin (s : Server) (e : Event) (code : RoomCode) (room' : Room) :
  JSMap.wf (rooms s) ->
  JSMap.get code (rooms (step s e)) = Some room' ->
  (exists room, JSMap.get code (rooms s) = Some room /\ evolves e code room room')
  \/ (oid room' = created s /\ currentQ room' = -1 /\ allocates e = 1%nat).
Proof.
  intros Hwf. destruct e; simpl.
  - unfold on_create_room.
    destruct verified as [decoded|]; simpl; [|eauto with rooms].
    destruct (String.eqb (role decoded) "host"); simpl; [|eauto with rooms].
    intros H. lookup_written H; eauto with rooms.
  - intros H. left. eapply on_join_origin; eauto.
  - intros H. left. eapply on_next_question_origin; eauto.
  - intros H. left. eapply on_answer_origin; eauto.
  - intros H. left. eapply on_disconnect_origin; eauto.
  - rewrite endQuestion_store. eauto with rooms.
Qed.

Lemma handle_wf (s : Server) (e : Event) :
  JSMap.wf (rooms s) -> JSMap.wf (store (handle e s)).
Proof.
  intros Hwf. destruct e; simpl.
  - unfold on_create_room. destruct verified as [decoded|]; simpl; auto.
    destruct (String.eqb (role decoded) "host"); simpl; auto.
    now apply JSMapFacts.wf_set.
  - unfold on_join. destruct (JSMap.get roomCode (rooms s)); simpl; auto.
    now apply JSMapFacts.wf_set.
  - unfold on_next_question.
    destruct (JSMap.get roomCode (rooms s)) as [room|]; simpl; auto.
    destruct (String.eqb socket (hostId room)); simpl; auto.
    destruct (_ <=? _); [|destruct (current_question _)]; simpl;
      now apply JSMapFacts.wf_set.
  - unfold on_answer.
    destruct (JSMap.get roomCode (rooms s)) as [room|]; simpl; auto.
    destruct (JSMap.get socket (players room)) as [player|]; simpl; auto.
    destruct (answered player); simpl; auto.
    destruct (current_question room); simpl; now apply JSMapFacts.wf_set.
  - now apply on_disconnect_wf.
  - now rewrite endQuestion_store.
Qed.

Lemma boot_inv : inv boot.
Proof.
  split.
  - constructor.
  - intros code room H. discriminate H.
Qed.

Lemma step_inv (s : Server) (e : Event) : inv s -> inv (step s e).
Proof.
  intros [Hwf Hfresh]. split.
  - now apply handle_wf.
  - intros code room' H.
    destruct (step_origin s e code room' Hwf H)
      as [(room & Hroom & Hoid & _) | (Hoid & _ & Halloc)]; simpl.
    + rewrite Hoid. apply Hfresh in Hroom. lia.
    + rewrite Hoid, Halloc. lia.
Qed.

Lemma run_inv (es : list Event) (s : Server) : inv s -> inv (run s es).
Proof.
  revert s. induction es as [|e es IH]; intros s Hs; simpl; auto.
  apply IH. now apply step_inv.
Qed.

Lemma evolves_later (e : Event) (code : RoomCode) (room room' : Room) :
  evolves e code room room' -> later room room'.
Proof. unfold evolves, later. intuition lia. Qed.

Lemma later_trans (r1 r2 r3 : Room) : later r1 r2 -> later r2 r3 -> later r1 r3.
Proof. unfold later. intuition (try congruence; lia). Qed.

(** A room object that is in the table after a run, and that existed before
    the run, was in the table before the run, under the same code, with the
    same quiz and host and an index that was not larger. *)
Lemma run_back (es : list Event) (s : Server) (code : RoomCode) (room' : Room) :
  inv s ->
  JSMap.get code (rooms (run s es)) = Some room' ->
  (oid room' < created s)%nat ->
  exists room, JSMap.get code (rooms s) = Some room /\ later room room'.
Proof.
  revert s. induction es as [|e es IH]; intros s Hs Hget Hold; simpl in Hget.
  - exists room'. split; auto. unfold later. intuition lia.
  - destruct (IH (step s e) (step_inv s e Hs) Hget) as (room1 & Hroom1 & Hl1).
    { simpl. lia. }
    destruct (step_origin s e code room1 (proj1 Hs) Hroom1)
      as [(room & Hroom & Hev) | (Hoid & _)].
    + exists room. split; auto.
      eapply later_trans; [eapply evolves_later|]; eauto.
    + destruct Hl1 as (Hsame & _). lia.
Qed.

(** C8.  Over every run of the server from its start -- any sequence of
    room creations, joins, next-question requests, answers, disconnects and
    timer firings -- the question index of a room never decreases: if the
    table holds a room under some code and, any number of events later,
    holds the same room, its index is at least what it was.  One event
    leaves the index of a room as it was or adds one to it, and it adds one
    only when it is [host:next_question] for that room sent by the room's
    host.  A room that an event brings into the table starts at -1. *)
Theorem currentQ_never_decreases :
  (forall (es es' : list Event) (roomCode : RoomCode) (room room' : Room),
      JSMap.get roomCode (rooms (run boot es)) = Some room ->
      JSMap.get roomCode (rooms (run (run boot es) es')) = Some room' ->
      oid room' = oid room ->
      currentQ room <= currentQ room')
  /\ (forall (es : list Event) (e : Event) (roomCode : RoomCode) (room room' : Room),
        JSMap.get roomCode (rooms (run boot es)) = Some room ->
        JSMap.get roomCode (rooms (step (run boot es) e)) = Some room' ->
        oid room' = oid room ->
        currentQ room' = currentQ room
        \/ (currentQ room' = currentQ room + 1
            /\ exists now, e = host_next_question (hostId room) roomCode now))
  /\ (forall (es : list Event) (e : Event) (roomCode : RoomCode) (room' : Room),
        JSMap.get roomCode (rooms (step (run boot es) e)) = Some room' ->
        (forall room, JSMap.get roomCode (rooms (run boot es)) = Some room ->
                      oid room <> oid room') ->
        currentQ room' = -1).
Proof.
  split; [|split].
  - intros es es' roomCode room room' Hroom Hroom' Hoid.
    assert (Hinv : inv (run boot es)) by apply run_inv, boot_inv.
    destruct (run_back es' (run boot es) roomCode room' Hinv Hroom')
      as (room0 & Hroom0 & Hl).
    { rewrite Hoid. now apply (proj2 Hinv roomCode). }
    rewrite Hroom in Hroom0. injection Hroom0 as <-. apply Hl.
  - intros es e roomCode room room' Hroom Hroom' Hoid.
    assert (Hinv : inv (run boot es)) by apply run_inv, boot_inv.
    destruct (step_origin _ e roomCode room' (proj1 Hinv) Hroom')
      as [(room0 & Hroom0 & Hev) | (Hnew & _)].
    + rewrite Hroom in Hroom0. injection Hroom0 as <-. apply Hev.
    + apply (proj2 Hinv) in Hroom. lia.
  - intros es e roomCode room' Hroom' Hnew.
    assert (Hinv : inv (run boot es)) by apply run_inv, boot_inv.
    destruct (step_origin _ e roomCode room' (proj1 Hinv) Hroom')
      as [(room0 & Hroom0 & Hev) | (_ & Hq & _)]; auto.
    destruct Hev as (Hoid & _). apply Hnew in Hroom0. congruence.
Qed.

Lemma currentQ_never_decreases_witness :
  JSMap.get "ABCD" (rooms (lobby (mkQuiz [q_single]))) = Some abcd_lobby
  /\ JSMap.get "ABCD" (rooms single_over) = Some abcd_over
  /\ currentQ abcd_lobby <= currentQ abcd_over
  /\ (currentQ abcd_running = currentQ abcd_lobby
      \/ (currentQ abcd_running = currentQ abcd_lobby + 1
          /\ exists now,
              host_next_question "H" "ABCD" 0
              = host_next_question (hostId abcd_lobby) "ABCD" now))
  /\ currentQ (mkRoom 0 "H" "u-1" (mkQuiz [q_single]) [] (-1) None) = -1.
Proof.
  destruct currentQ_never_decreases as (Hmono & Hstep & Hnew).
  split; [reflexivity|]. split; [reflexivity|]. split; [|split].
  - apply (Hmono (lobby_events (mkQuiz [q_single]))
                 [host_next_question "H" "ABCD" 0;
                  host_next_question "H" "ABCD" 21000]
                 "ABCD" abcd_lobby abcd_over); reflexivity.
  - apply (Hstep (lobby_events (mkQuiz [q_single]))
                 (host_next_question "H" "ABCD" 0)
                 "ABCD" abcd_lobby abcd_running); reflexivity.
  - apply (Hnew [] (host_create_room "H" (mkQuiz [q_single]) host_token "ABCD")
                "ABCD").
    + reflexivity.
    + intros room H. discriminate H.
Defined.

(** ** Game over *)

(** Once the index of a room is at or past the last question, a
    [host:next_question] for it sends [game:over] or nothing. *)
Lemma on_next_question_over (socket : SocketId) (roomCode : RoomCode) (now : Z)
    (tbl : Rooms) (room : Room) :
  JSMap.get roomCode tbl = Some room ->
  Z.of_nat (List.length (questions (quiz room))) <= currentQ room + 1 ->
  forall eff,
    In eff (effects (on_next_question socket roomCode now tbl)) ->
    is_question_start eff = false.
Proof.
  intros Hroom Hover eff. unfold on_next_question. rewrite Hroom.
  destruct (String.eqb socket (hostId room)); simpl; [|tauto].
  apply Z.leb_le in Hover. rewrite Hover. simpl.
  intros [<-|[]]. reflexivity.
Qed.

(** A [host:next_question] that sends [game:over] leaves the room in the
    table with its index at or past the end of the quiz. *)
Lemma on_next_question_game_over (socket : SocketId) (roomCode : RoomCode)
    (now : Z) (tbl : Rooms) (room : Room) (lb : list Standing) :
  JSMap.get roomCode tbl = Some room ->
  In (Emit roomCode (game_over lb))
     (effects (on_next_question socket roomCode now tbl)) ->
  exists room1,
    JSMap.get roomCode (store (on_next_question socket roomCode now tbl)) = Some room1
    /\ oid room1 = oid room
    /\ Z.of_nat (List.length (questions (quiz room1))) <= currentQ room1.
Proof.
  intros Hroom. unfold on_next_question. rewrite Hroom.
  destruct (String.eqb socket (hostId room)); simpl; [|tauto].
  destruct (_ <=? _) eqn:Hover; simpl.
  - intros _. eexists. split; [apply JSMapFacts.get_set_same|].
    simpl. split; auto. now apply Z.leb_le.
  - destruct (current_question _); simpl; [|tauto].
    intros [H|[H|[]]]; discriminate H.
Qed.

(** C6.  Take any run of the server from its start in which a
    [host:next_question] for a room makes the handler send [game:over] (the
    index has gone past the last question).  Whatever events follow, a
    [host:next_question] that reaches that room again never sends
    [question:start]. *)
Theorem no_question_after_game_over
    (es es' : list Event) (socket socket' : SocketId) (roomCode : RoomCode)
    (now now' : Z) (lb : list Standing) (room : Room) :
  let s := run boot es in
  let over := step s (host_next_question socket roomCode now) in
  let s' := run over es' in
  JSMap.get roomCode (rooms s) = Some room ->
  In (Emit roomCode (game_over lb))
     (effects (handle (host_next_question socket roomCode now) s)) ->
  (forall room', JSMap.get roomCode (rooms s') = Some room' -> oid room' = oid room) ->
  forall eff,
    In eff (effects (handle (host_next_question socket' roomCode now') s')) ->
    is_question_start eff = false.
Proof.
  intros s over s' Hroom Hover Hsame eff. simpl.
  destruct (JSMap.get roomCode (rooms s')) as [room'|] eqn:Hroom'.
  2:{ unfold on_next_question. rewrite Hroom'. simpl. tauto. }
  destruct (on_next_question_game_over _ _ _ _ _ _ Hroom Hover)
    as (room1 & Hroom1 & Hoid1 & Hlen1).
  assert (Hinv : inv over) by (apply step_inv, run_inv, boot_inv).
  destruct (run_back es' over roomCode room' Hinv Hroom') as (room0 & Hroom0 & Hl).
  { rewrite (Hsame room' eq_refl), <- Hoid1. now apply (proj2 Hinv roomCode). }
  assert (room0 = room1) by (unfold over, step in Hroom0; simpl in Hroom0; congruence).
  subst room0. destruct Hl as (_ & Hquiz & _ & Hq).
  apply (on_next_question_over socket' roomCode now' (rooms s') room' Hroom').
  rewrite Hquiz. lia.
Qed.

Lemma no_question_after_game_over_witness :
  Forall (fun eff => is_question_start eff = false)
         (effects (handle (host_next_question "H" "ABCD" 30000)
                          (run single_over
                               [player_join "S" "ABCD" "sam"; timer_fires "ZZZZ"]))).
Proof.
  apply Forall_forall.
  apply (no_question_after_game_over
           (lobby_events (mkQuiz [q_single]) ++ [host_next_question "H" "ABCD" 0])
           [player_join "S" "ABCD" "sam"; timer_fires "ZZZZ"]
           "H" "H" "ABCD" 21000 30000 [("pat", 0%Q); ("ron", 0%Q)] abcd_running).
  - reflexivity.
  - simpl. left. reflexivity.
  - intros room' H. vm_compute in H. injection H as <-. reflexivity.
Defined.

(** * Further properties of the handlers *)

(** ** The scoring rule, for every submission *)


Lemma of_length_pos {A : Type} (l : list A) :
  (0 < List.length l)%nat -> (0 < of_length l)%Q.
Proof.
  intros H. unfold of_length. change 0%Q with (inject_Z 0).
  rewrite <- Zlt_Qlt. lia.
Qed.


Lemma share_pos (n k : Q) : (0 < n -> 0 < k -> 0 < 1000 / n * k)%Q.
Proof.
  intros Hn Hk. apply Qmult_lt_0_compat; auto.
  apply Qlt_shift_div_l; auto. lra.
Qed.


Ltac reflect_eqb H :=
  match type of H with
  | Nat.eqb _ _ = true => apply Nat.eqb_eq in H
  | Nat.eqb _ _ = false => apply Nat.eqb_neq in H
  end.

(** The three outcomes of the rule: nothing, the full score, a share. *)
Lemma scoreEarned_cases (q : Question) (answers : list Z) (left : Z) :
  let correctChoices := filter (includes (key_of q)) answers in
  (scoreEarned q answers left = 0%Q
   /\ (key_of q = [] \/ correctChoices = []))
  \/ (scoreEarned q answers left = inject_Z (1000 + left / 50)
      /\ key_of q <> []
      /\ List.length correctChoices = List.length (key_of q)
      /\ filter (fun idx => negb (includes (key_of q) idx)) answers = [])
  \/ (scoreEarned q answers left
      = (1000 / of_length (key_of q) * of_length correctChoices)%Q
      /\ key_of q <> [] /\ correctChoices <> []
      /\ (List.length correctChoices <> List.length (key_of q)
          \/ filter (fun idx => negb (includes (key_of q) idx)) answers <> [])).
Proof.
  unfold scoreEarned, key_of. cbv zeta.
  destruct (correctIndices q) as [key|]; [|left; auto].
  destruct (0 <? List.length key)%nat eqn:Hpos.
  2:{ left. split; auto. left. apply Nat.ltb_ge in Hpos.
      destruct key; [reflexivity | simpl in Hpos; lia]. }
  apply Nat.ltb_lt in Hpos.
  assert (Hkey : key <> []) by (intros ->; simpl in Hpos; lia).
  destruct (Nat.eqb (List.length (filter (includes key) answers)) (List.length key))
    eqn:Hlen;
    destruct (Nat.eqb (List.length (filter (fun idx => negb (includes key idx)) answers)) 0)
      eqn:Hnone; cbn [andb];
    reflect_eqb Hlen; reflect_eqb Hnone.
  - right. left. repeat split; auto. now apply length_zero_iff_nil.
  - right. right.
    assert (Hc : (0 <? List.length (filter (includes key) answers))%nat = true)
      by (apply Nat.ltb_lt; lia).
    rewrite Hc. repeat split; auto.
    + intros E. rewrite E in Hlen. simpl in Hlen. lia.
    + right. intros E. rewrite E in Hnone. now apply Hnone.
  - destruct (0 <? List.length (filter (includes key) answers))%nat eqn:Hc.
    + right. right. apply Nat.ltb_lt in Hc. repeat split; auto.
      intros E. rewrite E in Hc. simpl in Hc. lia.
    + left. split; auto. right. apply Nat.ltb_ge in Hc.
      apply length_zero_iff_nil. lia.
  - destruct (0 <? List.length (filter (includes key) answers))%nat eqn:Hc.
    + right. right. apply Nat.ltb_lt in Hc. repeat split; auto.
      intros E. rewrite E in Hc. simpl in Hc. lia.
    + left. split; auto. right. apply Nat.ltb_ge in Hc.
      apply length_zero_iff_nil. lia.
Qed.

Lemma nonempty_In {A : Type} (l : list A) : l <> [] -> exists x, In x l.
Proof. destruct l as [|x l]; [contradiction|]. exists x. now left. Qed.

Lemma bonus_nonneg (left : Z) : 0 <= left -> (0 < inject_Z (1000 + left / 50))%Q.
Proof.
  intros H. change 0%Q with (inject_Z 0). rewrite <- Zlt_Qlt.
  assert (0 <= left / 50) by (apply Z.div_pos; lia). lia.
Qed.

Lemma scoreEarned_nonneg (q : Question) (answers : list Z) (left : Z) :
  0 <= left -> (0 <= scoreEarned q answers left)%Q.
Proof.
  intros Hleft.
  destruct (scoreEarned_cases q answers left)
    as [(-> & _) | [(-> & _) | (-> & Hk & Hc & _)]].
  - lra.
  - apply Qlt_le_weak, bonus_nonneg, Hleft.
  - apply Qlt_le_weak, share_pos; apply of_length_pos.
    + destruct (key_of q); [contradiction | simpl; lia].
    + destruct (filter _ answers); [contradiction | simpl; lia].
Qed.

(** The score is positive exactly when one of the submitted indices is a
    correct choice. *)
Lemma scoreEarned_pos_iff (q : Question) (answers : list Z) (left : Z) :
  0 <= left ->
  Qle_bool (scoreEarned q answers left) 0 = false
  <-> exists x, In x answers /\ In x (key_of q).
Proof.
  intros Hleft.
  assert (Hin : forall x, In x (filter (includes (key_of q)) answers)
                          <-> In x answers /\ In x (key_of q)).
  { intros x. now rewrite filter_In, includes_In. }
  rewrite <- not_true_iff_false, Qle_bool_iff.
  destruct (scoreEarned_cases q answers left)
    as [(-> & Hnone) | [(-> & Hk & Hlen & _) | (-> & Hk & Hc & _)]].
  - split; [intros H; exfalso; apply H; lra|].
    intros [x [Hxa Hxk]] _. destruct Hnone as [E|E].
    + rewrite E in Hxk. destruct Hxk.
    + assert (Hx : In x (filter (includes (key_of q)) answers)) by (apply Hin; auto).
      rewrite E in Hx. destruct Hx.
  - split.
    + intros _. destruct (nonempty_In (filter (includes (key_of q)) answers)) as [x Hx].
      * intros E. rewrite E in Hlen. destruct (key_of q); [contradiction | discriminate Hlen].
      * exists x. now apply Hin.
    + intros _ H. pose proof (bonus_nonneg left Hleft). lra.
  - split.
    + intros _. destruct (nonempty_In _ Hc) as [x Hx]. exists x. now apply Hin.
    + intros _ H.
      assert (0 < 1000 / of_length (key_of q)
                  * of_length (filter (includes (key_of q)) answers))%Q.
      { apply share_pos; apply of_length_pos.
        - destruct (key_of q); [contradiction | simpl; lia].
        - destruct (filter _ answers); [contradiction | simpl; lia]. }
      lra.
Qed.

(** More time left never earns less. *)
Lemma scoreEarned_mono (q : Question) (answers : list Z) (t1 t2 : Z) :
  t1 <= t2 -> (scoreEarned q answers t1 <= scoreEarned q answers t2)%Q.
Proof.
  intros Ht.
  destruct (scoreEarned_cases q answers t1)
    as [(E1 & H1) | [(E1 & Hk & Hlen & Hno) | (E1 & Hk & Hc & Hnot)]];
    destruct (scoreEarned_cases q answers t2)
      as [(E2 & H2) | [(E2 & Hk2 & Hlen2 & Hno2) | (E2 & Hk2 & Hc2 & Hnot2)]];
    rewrite E1, E2; try lra.
  - destruct H1 as [E|E]; [contradiction|].
    rewrite E in Hlen2. destruct (key_of q); [contradiction | discriminate].
  - destruct H1 as [E|E]; contradiction.
  - destruct H2 as [E|E]; [contradiction|].
    rewrite E in Hlen. destruct (key_of q); [contradiction | discriminate].
  - rewrite <- Zle_Qle. assert (t1 / 50 <= t2 / 50) by (apply Z.div_le_mono; lia). lia.
  - destruct Hnot2 as [H|H]; contradiction.
  - destruct H2 as [E|E]; contradiction.
  - destruct Hnot as [H|H]; contradiction.
Qed.


(** ** Accepted answers *)

Lemma timeLeftMs_nonneg (room : Room) (now : Z) : 0 <= timeLeftMs room now.
Proof. unfold timeLeftMs. apply Z.le_max_l. Qed.

Lemma playerAnswers_In (choiceIndices : ChoiceIndices) (x : Z) :
  In x (playerAnswers choiceIndices) <-> In x (submitted choiceIndices).
Proof.
  split; apply Permutation_in; [symmetry|]; apply playerAnswers_perm.
Qed.

(** What the handler does with a submission that passes its guards. *)
Lemma on_answer_result (socket : SocketId) (roomCode : RoomCode)
    (choiceIndices : ChoiceIndices) (now : Z) (tbl : Rooms)
    (room : Room) (player : Player) (q : Question) :
  JSMap.get roomCode tbl = Some room ->
  JSMap.get socket (players room) = Some player ->
  answered player = false ->
  current_question room = Some q ->
  let earned := scoreEarned q (playerAnswers choiceIndices) (timeLeftMs room now) in
  let room' :=
    with_players room
      (JSMap.set socket (mkPlayer (name player) (score player + earned) true)
                 (players room)) in
  on_answer socket roomCode choiceIndices now tbl
  = done (JSMap.set roomCode room' tbl)
         [Emit socket (player_answer_result (negb (Qle_bool earned 0)));
          Emit (hostId room) (host_leaderboard (makeLeaderboard room'))].
Proof.
  intros Hroom Hplayer Hans Hq. unfold on_answer.
  rewrite Hroom, Hplayer, Hans, Hq. reflexivity.
Qed.

(** X1.  The acknowledgement says [correct: true] exactly when one of the
    submitted indices is a correct choice of the question -- also for an
    answer that only earns a share -- and the leaderboard goes to the host
    alone. *)
Theorem answer_ack_iff_some_correct (socket : SocketId) (roomCode : RoomCode)
    (choiceIndices : ChoiceIndices) (now : Z) (tbl : Rooms)
    (room : Room) (player : Player) (q : Question) :
  JSMap.get roomCode tbl = Some room ->
  JSMap.get socket (players room) = Some player ->
  answered player = false ->
  current_question room = Some q ->
  exists correct leaderboard,
    effects (on_answer socket roomCode choiceIndices now tbl)
    = [Emit socket (player_answer_result correct);
       Emit (hostId room) (host_leaderboard leaderboard)]
    /\ (correct = true
        <-> exists x, In x (submitted choiceIndices) /\ In x (key_of q)).
Proof.
  intros Hroom Hplayer Hans Hq.
  rewrite (on_answer_result socket roomCode choiceIndices now tbl room player q)
    by assumption.
  cbv zeta. do 2 eexists. split; [reflexivity|].
  rewrite negb_true_iff, scoreEarned_pos_iff by apply timeLeftMs_nonneg.
  split; intros [x [Hx Hk]]; exists x; split; auto; now apply playerAnswers_In.
Qed.

Lemma answer_ack_iff_some_correct_witness :
  exists correct leaderboard,
    effects (on_answer "P" "ABCD" (choice_array [1; 0]) 8000 (rooms double_second))
    = [Emit "P" (player_answer_result correct);
       Emit "H" (host_leaderboard leaderboard)]
    /\ (correct = true
        <-> exists x, In x [1; 0] /\ In x [0; 2]).
Proof.
  apply (answer_ack_iff_some_correct "P" "ABCD" (choice_array [1; 0]) 8000
           (rooms double_second) abcd_second (mkPlayer "pat" 0 false) q_multi);
    reflexivity.
Defined.

(** X2.  An accepted answer changes the sender's record only: the score does
    not go down, [answered] is set and the name stays; every other player,
    the order of the players, the index and the deadline are as before. *)
Theorem answer_touches_only_sender (socket : SocketId) (roomCode : RoomCode)
    (choiceIndices : ChoiceIndices) (now : Z) (tbl : Rooms)
    (room : Room) (player : Player) (q : Question) :
  JSMap.get roomCode tbl = Some room ->
  JSMap.get socket (players room) = Some player ->
  answered player = false ->
  current_question room = Some q ->
  exists room' player',
    JSMap.get roomCode (store (on_answer socket roomCode choiceIndices now tbl))
    = Some room'
    /\ JSMap.get socket (players room') = Some player'
    /\ name player' = name player
    /\ answered player' = true
    /\ (score player <= score player')%Q
    /\ (forall other, other <> socket ->
          JSMap.get other (players room') = JSMap.get other (players room))
    /\ JSMap.keys (players room') = JSMap.keys (players room)
    /\ currentQ room' = currentQ room
    /\ endsAt room' = endsAt room.
Proof.
  intros Hroom Hplayer Hans Hq.
  rewrite (on_answer_result socket roomCode choiceIndices now tbl room player q)
    by assumption.
  cbv zeta. do 2 eexists. simpl.
  split; [apply JSMapFacts.get_set_same|]. simpl.
  split; [apply JSMapFacts.get_set_same|]. simpl.
  repeat split.
  - pose proof (scoreEarned_nonneg q (playerAnswers choiceIndices)
                  (timeLeftMs room now) (timeLeftMs_nonneg room now)).
    lra.
  - intros other Hne. apply JSMapFacts.get_set_other. congruence.
  - rewrite JSMapFacts.keys_set. unfold JSMap.has. now rewrite Hplayer.
Qed.

Lemma answer_touches_only_sender_witness :
  score_of (store (on_answer "P" "ABCD" (one_choice 1) 15000 (rooms single_running)))
           "ABCD" "R"
  = score_of (rooms single_running) "ABCD" "R"
  /\ answered_of (store (on_answer "P" "ABCD" (one_choice 1) 15000
                                   (rooms single_running))) "ABCD" "R"
     = Some false.
Proof.
  destruct (answer_touches_only_sender "P" "ABCD" (one_choice 1) 15000
              (rooms single_running) abcd_running (mkPlayer "pat" 0 false) q_single
              eq_refl eq_refl eq_refl eq_refl)
    as (room' & player' & Hroom' & _ & _ & _ & _ & Hothers & _).
  assert (Hne : "R" <> "P") by discriminate.
  unfold score_of, answered_of. rewrite Hroom', (Hothers "R" Hne).
  split; reflexivity.
Defined.

Lemma timeLeftMs_antitone (room : Room) (now1 now2 : Z) :
  now1 <= now2 -> timeLeftMs room now2 <= timeLeftMs room now1.
Proof. unfold timeLeftMs. lia. Qed.

(** X3.  The same submission sent later never earns more; the handler does not
    check the deadline, and once the deadline has passed the time of
    arrival no longer matters: a late answer earns what it would have
    earned at the deadline. *)
Theorem answer_later_earns_no_more (socket : SocketId) (roomCode : RoomCode)
    (choiceIndices : ChoiceIndices) (now1 now2 : Z) (tbl : Rooms)
    (room : Room) (player : Player) (q : Question) :
  JSMap.get roomCode tbl = Some room ->
  JSMap.get socket (players room) = Some player ->
  answered player = false ->
  current_question room = Some q ->
  now1 <= now2 ->
  exists s1 s2,
    score_of (store (on_answer socket roomCode choiceIndices now1 tbl)) roomCode socket
    = Some s1
    /\ score_of (store (on_answer socket roomCode choiceIndices now2 tbl)) roomCode socket
       = Some s2
    /\ (s2 <= s1)%Q
    /\ (forall deadline, endsAt room = Some deadline -> deadline <= now1 -> s2 = s1).
Proof.
  intros Hroom Hplayer Hans Hq Hnow.
  destruct (on_answer_accepted socket roomCode choiceIndices now1 tbl
              room player q Hroom Hplayer Hans Hq) as (_ & Hs1 & _).
  destruct (on_answer_accepted socket roomCode choiceIndices now2 tbl
              room player q Hroom Hplayer Hans Hq) as (_ & Hs2 & _).
  do 2 eexists. split; [exact Hs1|]. split; [exact Hs2|]. split.
  - apply Qplus_le_r, scoreEarned_mono, timeLeftMs_antitone, Hnow.
  - intros deadline Hend Hlate. unfold timeLeftMs. rewrite Hend.
    now rewrite !Z.max_l by lia.
Qed.

Lemma answer_later_earns_no_more_witness :
  exists s1 s2,
    score_of (store (on_answer "P" "ABCD" (one_choice 1) 21000 (rooms single_running)))
             "ABCD" "P" = Some s1
    /\ score_of (store (on_answer "P" "ABCD" (one_choice 1) 90000 (rooms single_running)))
                "ABCD" "P" = Some s2
    /\ (s2 <= s1)%Q /\ s2 = s1 /\ (s1 == 1000)%Q.
Proof.
  destruct (answer_later_earns_no_more "P" "ABCD" (one_choice 1) 21000 90000
              (rooms single_running) abcd_running (mkPlayer "pat" 0 false) q_single
              eq_refl eq_refl eq_refl eq_refl)
    as (s1 & s2 & H1 & H2 & Hle & Hlate); [lia|].
  exists s1, s2. repeat split; auto.
  - apply (Hlate 20000); [reflexivity | lia].
  - vm_compute in H1. injection H1 as <-. reflexivity.
Defined.



(** ** When a handler throws *)

Lemma at_index_None {A : Type} (arr : list A) (i : Z) :
  at_index arr i = None <-> i < 0 \/ Z.of_nat (List.length arr) <= i.
Proof.
  unfold at_index. destruct (i <? 0) eqn:E.
  - apply Z.ltb_lt in E. intuition.
  - apply Z.ltb_ge in E. rewrite nth_error_None. lia.
Qed.



(** X6.  The timer callback throws exactly when the room exists and its index
    points at no question; it never changes the table, and when it throws
    it has sent nothing. *)
Theorem endQuestion_throws_iff (roomCode : RoomCode) (tbl : Rooms) :
  (completion (endQuestion roomCode tbl) = TypeError
   <-> exists room,
        JSMap.get roomCode tbl = Some room
        /\ (currentQ room < 0
            \/ Z.of_nat (List.length (questions (quiz room))) <= currentQ room))
  /\ store (endQuestion roomCode tbl) = tbl
  /\ (completion (endQuestion roomCode tbl) = Returned
      \/ (completion (endQuestion roomCode tbl) = TypeError
          /\ effects (endQuestion roomCode tbl) = [])).
Proof.
  split; [|split; [apply endQuestion_store|]]; unfold endQuestion;
    destruct (JSMap.get roomCode tbl) as [room|] eqn:Hroom; simpl.
  - destruct (current_question room) as [q|] eqn:Hq; simpl.
    + split; [discriminate|]. intros (r & [= <-] & Hidx).
      apply at_index_None in Hidx. unfold current_question in Hq. congruence.
    + split; auto. intros _. exists room. split; auto. now apply at_index_None.
  - split; [discriminate|]. intros (r & H & _). discriminate H.
  - destruct (current_question room); simpl; auto.
  - auto.
Qed.

(** ** The question index in a running server *)









(** ** Starting a question *)

Lemma get_reset_answered (socket : SocketId) (ps : JSMap.t Player) :
  JSMap.get socket (reset_answered ps)
  = option_map (fun p => with_answered p false) (JSMap.get socket ps).
Proof.
  induction ps as [|[k p] ps IH]; simpl; auto.
  destruct (String.eqb socket k); auto.
Qed.

Lemma keys_reset_answered (ps : JSMap.t Player) :
  JSMap.keys (reset_answered ps) = JSMap.keys ps.
Proof.
  unfold JSMap.keys, reset_answered. rewrite map_map. reflexivity.
Qed.

(** The table after the host has started the next question. *)
Lemma on_next_question_started (roomCode : RoomCode) (now : Z) (tbl : Rooms)
    (room : Room) (q : Question) :
  JSMap.get roomCode tbl = Some room ->
  at_index (questions (quiz room)) (currentQ room + 1) = Some q ->
  JSMap.get roomCode (store (on_next_question (hostId room) roomCode now tbl))
  = Some (mkRoom (oid room) (hostId room) (hostUserId room) (quiz room)
                 (reset_answered (players room)) (currentQ room + 1)
                 (Some (now + time_limit q * 1000))).
Proof.
  intros Hroom Hq. unfold on_next_question. rewrite Hroom, String.eqb_refl. simpl.
  assert (Hlt : (Z.of_nat (List.length (questions (quiz room))) <=? currentQ room + 1)
                = false).
  { apply Z.leb_gt.
    destruct (Z_lt_le_dec (currentQ room + 1)
                (Z.of_nat (List.length (questions (quiz room))))) as [H|H]; auto.
    assert (at_index (questions (quiz room)) (currentQ room + 1) = None)
      by (apply at_index_None; auto).
    congruence. }
  rewrite Hlt. unfold current_question. simpl. rewrite Hq. simpl.
  apply JSMapFacts.get_set_same.
Qed.

(** X9.  Starting a question clears [answered] for every player of the room and
    keeps their names, their scores and their order; the index moves to the
    question and the deadline is [now + limit]. *)
Theorem question_start_resets (roomCode : RoomCode) (now : Z) (tbl : Rooms)
    (room : Room) (q : Question) :
  JSMap.get roomCode tbl = Some room ->
  at_index (questions (quiz room)) (currentQ room + 1) = Some q ->
  exists room',
    JSMap.get roomCode (store (on_next_question (hostId room) roomCode now tbl))
    = Some room'
    /\ current_question room' = Some q
    /\ endsAt room' = Some (now + time_limit q * 1000)
    /\ JSMap.keys (players room') = JSMap.keys (players room)
    /\ (forall socket,
          JSMap.get socket (players room')
          = option_map (fun p => mkPlayer (name p) (score p) false)
                       (JSMap.get socket (players room)))
    /\ makeLeaderboard room' = makeLeaderboard room.
Proof.
  intros Hroom Hq. eexists.
  split; [apply (on_next_question_started roomCode now tbl room q Hroom Hq)|].
  unfold current_question. simpl. repeat split; auto.
  - apply keys_reset_answered.
  - intros socket. apply get_reset_answered.
  - unfold makeLeaderboard, JSMap.values, reset_answered. simpl.
    rewrite !map_map. reflexivity.
Qed.

Lemma question_start_resets_witness :
  answered_of (rooms double_answered) "ABCD" "P" = Some true
  /\ answered_of (store (on_next_question "H" "ABCD" 20000 (rooms double_answered)))
                 "ABCD" "P" = Some false
  /\ score_of (store (on_next_question "H" "ABCD" 20000 (rooms double_answered)))
              "ABCD" "P" = Some 1100%Q.
Proof.
  split; [reflexivity|].
  destruct (question_start_resets "ABCD" 20000 (rooms double_answered)
              abcd_answered q_multi eq_refl eq_refl)
    as (room' & Hroom' & _ & _ & _ & Hps & _).
  change (hostId abcd_answered) with "H" in Hroom'.
  unfold answered_of, score_of. rewrite Hroom', Hps. split; reflexivity.
Defined.

(** X10.  Once the host has started a question, every player of the room can
    answer it, whether or not the player had answered the question before:
    the answer is accepted and scored against the new question and the new
    deadline. *)
Theorem answer_after_start (socket : SocketId) (roomCode : RoomCode)
    (choiceIndices : ChoiceIndices) (now now' : Z) (tbl : Rooms)
    (room : Room) (q : Question) (player : Player) :
  JSMap.get roomCode tbl = Some room ->
  at_index (questions (quiz room)) (currentQ room + 1) = Some q ->
  JSMap.get socket (players room) = Some player ->
  let started := store (on_next_question (hostId room) roomCode now tbl) in
  completion (on_answer socket roomCode choiceIndices now' started) = Returned
  /\ score_of (store (on_answer socket roomCode choiceIndices now' started))
              roomCode socket
     = Some (score player
             + scoreEarned q (playerAnswers choiceIndices)
                           (Z.max 0 (now + time_limit q * 1000 - now')))%Q.
Proof.
  intros Hroom Hq Hplayer started.
  pose proof (on_next_question_started roomCode now tbl room q Hroom Hq) as Hstarted.
  fold started in Hstarted.
  destruct (on_answer_accepted socket roomCode choiceIndices now' started
              _ (with_answered player false) q Hstarted) as (Hret & Hs & _).
  - simpl. now rewrite get_reset_answered, Hplayer.
  - reflexivity.
  - unfold current_question. simpl. exact Hq.
  - split; [exact Hret|]. exact Hs.
Qed.

Lemma answer_after_start_witness :
  score_of (rooms double_answered) "ABCD" "P" = Some 1100%Q
  /\ answered_of (rooms double_answered) "ABCD" "P" = Some true
  /\ (exists s,
        score_of
          (store (on_answer "P" "ABCD" (choice_array [0; 2]) 30000
                    (store (on_next_question "H" "ABCD" 20000 (rooms double_answered)))))
          "ABCD" "P" = Some s
        /\ (s == 2300)%Q).
Proof.
  split; [reflexivity|]. split; [reflexivity|].
  destruct (answer_after_start "P" "ABCD" (choice_array [0; 2]) 20000 30000
              (rooms double_answered) abcd_answered
              q_multi (mkPlayer "pat" 1100 true) eq_refl eq_refl eq_refl)
    as [_ Hs].
  eexists. split; [exact Hs|]. reflexivity.
Defined.

(** ** What an event can touch and what it can send *)

(** X11.  An event that names a room leaves every other room of the table as it
    was. *)
Theorem event_leaves_other_rooms (s : Server) (e : Event)
    (named other : RoomCode) :
  addressed e = Some named ->
  named <> other ->
  JSMap.get other (store (handle e s)) = JSMap.get other (rooms s).
Proof.
  intros Hnamed Hne.
  destruct e; simpl in Hnamed; try discriminate; injection Hnamed as ->; simpl.
  - unfold on_create_room. destruct verified as [decoded|]; simpl; auto.
    destruct (String.eqb (role decoded) "host"); simpl; auto.
    now apply JSMapFacts.get_set_other.
  - unfold on_join. destruct (JSMap.get named (rooms s)); simpl; auto.
    now apply JSMapFacts.get_set_other.
  - unfold on_next_question.
    destruct (JSMap.get named (rooms s)) as [room|]; simpl; auto.
    destruct (String.eqb socket (hostId room)); simpl; auto.
    destruct (_ <=? _); [|destruct (current_question _)]; simpl;
      now apply JSMapFacts.get_set_other.
  - unfold on_answer.
    destruct (JSMap.get named (rooms s)) as [room|]; simpl; auto.
    destruct (JSMap.get socket (players room)) as [player|]; simpl; auto.
    destruct (answered player); simpl; auto.
    destruct (current_question room); simpl; now apply JSMapFacts.get_set_other.
  - now rewrite endQuestion_store.
Qed.

Lemma event_leaves_other_rooms_witness :
  JSMap.get "ABCD"
    (store (handle (host_create_room "G" (mkQuiz []) host_token "WXYZ") single_answered))
  = JSMap.get "ABCD" (rooms single_answered).
Proof.
  apply (event_leaves_other_rooms single_answered
           (host_create_room "G" (mkQuiz []) host_token "WXYZ") "WXYZ" "ABCD").
  - reflexivity.
  - discriminate.
Defined.

Ltac enumerate H :=
  repeat match type of H with
         | In _ (_ :: _) => destruct H as [H|H]
         | In _ [] => destruct H
         | _ \/ _ => destruct H as [H|H]
         | False => destruct H
         end.

Lemma disconnect_sends_kinds (socket : SocketId) (tbl : Rooms) (eff : Effect) :
  In eff (effects (on_disconnect socket tbl)) ->
  exists code room,
    In (code, room) tbl
    /\ ((hostId room = socket /\ eff = Emit code game_closed)
        \/ (hostId room <> socket
            /\ JSMap.has socket (players room) = true
            /\ eff = Emit code
                       (host_players_update
                          (JSMap.values (JSMap.delete socket (players room)))))).
Proof.
  rewrite on_disconnect_sends, in_flat_map. intros [[code room] [Hin Heff]].
  exists code, room. split; auto. unfold disconnect_sends in Heff. simpl in Heff.
  destruct (String.eqb (hostId room) socket) eqn:Hhost.
  - apply String.eqb_eq in Hhost. enumerate Heff. auto.
  - apply String.eqb_neq in Hhost.
    destruct (JSMap.has socket (players room)) eqn:Hhas; enumerate Heff. auto.
Qed.

(** X12.  An [error] message goes to the connection that sent the request and to
    nobody else; it is the only thing the handler sends, and the request
    has changed nothing. *)
Theorem error_only_to_sender (s : Server) (e : Event) (to : string)
    (message : string) :
  In (Emit to (error message)) (effects (handle e s)) ->
  sender e = Some to
  /\ effects (handle e s) = [Emit to (error message)]
  /\ store (handle e s) = rooms s.
Proof.
  destruct e; simpl.
  - unfold on_create_room. destruct verified as [decoded|]; simpl.
    + destruct (String.eqb (role decoded) "host"); simpl; intros H; enumerate H;
        try discriminate H; injection H as <- <-; auto.
    + intros H; enumerate H. injection H as <- <-. auto.
  - unfold on_join. destruct (JSMap.get roomCode (rooms s)); simpl;
      intros H; enumerate H; try discriminate H. injection H as <- <-. auto.
  - unfold on_next_question.
    destruct (JSMap.get roomCode (rooms s)) as [room|]; simpl; [|tauto].
    destruct (String.eqb socket (hostId room)); simpl; [|tauto].
    destruct (_ <=? _); [|destruct (current_question _)]; simpl;
      intros H; enumerate H; discriminate H.
  - unfold on_answer.
    destruct (JSMap.get roomCode (rooms s)) as [room|]; simpl; [|tauto].
    destruct (JSMap.get socket (players room)) as [player|]; simpl; [|tauto].
    destruct (answered player); simpl; [tauto|].
    destruct (current_question room); simpl; intros H; enumerate H; discriminate H.
  - intros H. apply disconnect_sends_kinds in H.
    destruct H as (code & room & _ & [[_ H] | (_ & _ & H)]); discriminate H.
  - unfold endQuestion. destruct (JSMap.get roomCode (rooms s)) as [room|]; simpl; [|tauto].
    destruct (current_question room); simpl; intros H; enumerate H; discriminate H.
Qed.

Lemma error_only_to_sender_witness :
  sender (player_join "S" "NOPE" "sam") = Some "S"
  /\ effects (handle (player_join "S" "NOPE" "sam") single_answered)
     = [Emit "S" (error "Room not found")]
  /\ store (handle (player_join "S" "NOPE" "sam") single_answered)
     = rooms single_answered.
Proof.
  apply (error_only_to_sender single_answered (player_join "S" "NOPE" "sam")
           "S" "Room not found").
  simpl. left. reflexivity.
Defined.

(** X13.  Starting a question, ending the game and setting a question timer
    happen only in answer to a [host:next_question] that comes from the
    connection of the host of the room concerned. *)
Theorem host_only_effects (s : Server) (e : Event) (eff : Effect) :
  In eff (effects (handle e s)) ->
  host_only eff = true ->
  exists room now,
    JSMap.get (about eff) (rooms s) = Some room
    /\ e = host_next_question (hostId room) (about eff) now.
Proof.
  destruct e; simpl.
  - unfold on_create_room. destruct verified as [decoded|]; simpl.
    + destruct (String.eqb (role decoded) "host"); simpl; intros H; enumerate H;
        subst eff; discriminate.
    + intros H; enumerate H; subst eff; discriminate.
  - unfold on_join. destruct (JSMap.get roomCode (rooms s)); simpl;
      intros H; enumerate H; subst eff; discriminate.
  - unfold on_next_question.
    destruct (JSMap.get roomCode (rooms s)) as [room|] eqn:Hroom; simpl; [|tauto].
    destruct (String.eqb socket (hostId room)) eqn:Hhost; simpl; [|tauto].
    apply String.eqb_eq in Hhost. subst socket.
    destruct (_ <=? _); [|destruct (current_question _)]; simpl;
      intros H; enumerate H; subst eff; simpl; eauto.
  - unfold on_answer.
    destruct (JSMap.get roomCode (rooms s)) as [room|]; simpl; [|tauto].
    destruct (JSMap.get socket (players room)) as [player|]; simpl; [|tauto].
    destruct (answered player); simpl; [tauto|].
    destruct (current_question room); simpl; intros H; enumerate H;
      subst eff; discriminate.
  - intros H. apply disconnect_sends_kinds in H.
    destruct H as (code & room & _ & [[_ ->] | (_ & _ & ->)]); discriminate.
  - unfold endQuestion. destruct (JSMap.get roomCode (rooms s)) as [room|]; simpl; [|tauto].
    destruct (current_question room); simpl; intros H; enumerate H;
      subst eff; discriminate.
Qed.

Lemma host_only_effects_witness :
  exists room now,
    JSMap.get "ABCD" (rooms double_first) = Some room
    /\ host_next_question "H" "ABCD" 5000
       = host_next_question (hostId room) "ABCD" now.
Proof.
  apply (host_only_effects double_first (host_next_question "H" "ABCD" 5000)
           (SetTimeout 20200 "ABCD")).
  - simpl. right. left. reflexivity.
  - reflexivity.
Defined.

(** ** [disconnect], continued *)

Lemma disconnect_fold_unknown (socket : SocketId) (l : Rooms)
    (acc : Rooms) (effs : list Effect) :
  unknown_socket socket l ->
  fold_left (disconnect_entry socket) l (acc, effs) = (acc, effs).
Proof.
  revert acc effs. induction l as [|[code room] l IH]; intros acc effs Hl; simpl; auto.
  destruct (Hl code room (or_introl eq_refl)) as [Hhost Hhas].
  apply String.eqb_neq in Hhost. rewrite Hhost, Hhas.
  apply IH. intros c r Hin. apply (Hl c r). now right.
Qed.

Lemma on_disconnect_unknown (socket : SocketId) (tbl : Rooms) :
  unknown_socket socket tbl ->
  on_disconnect socket tbl = done tbl [].
Proof.
  intros H. unfold on_disconnect. now rewrite disconnect_fold_unknown.
Qed.

(** X14.  The disconnect of a connection that is the host of no room and a
    player of none changes nothing and sends nothing. *)
Theorem disconnect_unknown_noop (socket : SocketId) (tbl : Rooms) :
  unknown_socket socket tbl ->
  on_disconnect socket tbl = done tbl [].
Proof. apply on_disconnect_unknown. Qed.

Lemma disconnect_unknown_noop_witness :
  on_disconnect "S" (rooms single_answered) = done (rooms single_answered) [].
Proof.
  apply disconnect_unknown_noop.
  intros code room [H|[]]. injection H as <- <-. split; [discriminate | reflexivity].
Defined.

Lemma wf_In_get {V : Type} (m : JSMap.t V) (k : string) (v : V) :
  JSMap.wf m -> In (k, v) m -> JSMap.get k m = Some v.
Proof.
  induction m as [|[k' v'] m IH]; simpl; [tauto|].
  intros Hwf [H|H].
  - injection H as -> ->. now rewrite String.eqb_refl.
  - destruct (JSMapFacts.wf_tail _ _ _ Hwf) as [Hnone Hwf'].
    destruct (String.eqb k k') eqn:E; auto.
    apply String.eqb_eq in E. subst k'.
    rewrite (IH Hwf' H) in Hnone. discriminate.
Qed.

(** X15.  After the disconnect of a connection, the table knows it neither as
    host nor as player: no room is left behind for a host that is gone, and
    a second disconnect of the same connection changes nothing and sends
    nothing. *)
Theorem disconnect_forgets_socket (socket : SocketId) (tbl : Rooms) :
  JSMap.wf tbl ->
  let left := store (on_disconnect socket tbl) in
  unknown_socket socket left
  /\ on_disconnect socket left = done left [].
Proof.
  intros Hwf left.
  assert (Hunknown : unknown_socket socket left).
  { intros code room' Hin.
    apply wf_In_get in Hin; [|now apply on_disconnect_wf].
    unfold left in Hin. rewrite on_disconnect_lookup in Hin by assumption.
    destruct (JSMap.get code tbl) as [room|]; [|discriminate].
    unfold disconnect_leaves in Hin.
    destruct (String.eqb (hostId room) socket) eqn:Hhost; [discriminate|].
    apply String.eqb_neq in Hhost.
    destruct (JSMap.has socket (players room)) eqn:Hhas; injection Hin as <-; simpl.
    - split; auto. unfold JSMap.has. now rewrite JSMapFacts.get_delete_same.
    - split; auto. }
  split; auto. now apply on_disconnect_unknown.
Qed.

Lemma disconnect_forgets_socket_witness :
  on_disconnect "H" (store (on_disconnect "H" (rooms single_answered)))
  = done (store (on_disconnect "H" (rooms single_answered))) [].
Proof.
  apply (disconnect_forgets_socket "H" (rooms single_answered)).
  repeat constructor. simpl. tauto.
Defined.

(** ** [player:join] and [host:create_room], continued *)

Lemma set_new {V : Type} (k : string) (v : V) (m : JSMap.t V) :
  JSMap.get k m = None -> JSMap.set k v m = (m ++ [(k, v)])%list.
Proof.
  induction m as [|[k' v'] m IH]; simpl; auto.
  destruct (String.eqb k k'); [discriminate|]. intros H. now rewrite IH.
Qed.

(** X16.  A connection that is not yet a player of the room joins it at the end
    of the list of players, with score 0, whatever the state of the game;
    the players already there keep their records, and the count that the
    lobby is told grows by one. *)
Theorem join_new_player_last (socket : SocketId) (roomCode : RoomCode)
    (name : string) (tbl : Rooms) (room : Room) :
  JSMap.get roomCode tbl = Some room ->
  JSMap.get socket (players room) = None ->
  let r := on_join socket roomCode name tbl in
  JSMap.get roomCode (store r)
  = Some (with_players room
            (players room ++ [(socket, mkPlayer name 0 false)])%list)
  /\ effects r
     = [Join socket roomCode;
        Emit roomCode
             (host_players_update
                (JSMap.values (players room) ++ [mkPlayer name 0 false])%list);
        Emit roomCode (lobby_update (S (JSMap.size (players room))))].
Proof.
  intros Hroom Hnew. unfold on_join. rewrite Hroom. simpl.
  rewrite (set_new socket _ (players room) Hnew). split.
  - apply JSMapFacts.get_set_same.
  - unfold JSMap.values, JSMap.size. rewrite map_app, length_app. simpl.
    now rewrite Nat.add_1_r.
Qed.

Lemma join_new_player_last_witness :
  effects (on_join "S" "ABCD" "sam" (rooms single_over))
  = [Join "S" "ABCD";
     Emit "ABCD"
          (host_players_update
             [mkPlayer "pat" 0 false; mkPlayer "ron" 0 false; mkPlayer "sam" 0 false]);
     Emit "ABCD" (lobby_update 3)].
Proof.
  apply (join_new_player_last "S" "ABCD" "sam" (rooms single_over) abcd_over);
    reflexivity.
Defined.

(** X17.  [host:create_room] with a valid host token does not look whether the
    drawn code is in use.  It always stores a new, empty room under the
    code, hosted by the caller.  If a room was there, that game is over for
    its participants: a [host:next_question] from its host (another
    connection) and a [player:answer] from any connection are ignored. *)
Theorem create_room_replaces (socket : SocketId) (quiz0 : Quiz)
    (decoded : Decoded) (drawn : RoomCode) (fresh : nat) (tbl : Rooms)
    (old : Room) :
  role decoded = "host" ->
  JSMap.get drawn tbl = Some old ->
  let r := on_create_room socket quiz0 (Some decoded) drawn fresh tbl in
  JSMap.get drawn (store r)
  = Some (mkRoom fresh socket (user_id decoded) quiz0 [] (-1) None)
  /\ effects r = [Join socket drawn; Emit socket (host_room_created drawn)]
  /\ (forall now, hostId old <> socket ->
        on_next_question (hostId old) drawn now (store r) = done (store r) [])
  /\ (forall player choiceIndices now,
        on_answer player drawn choiceIndices now (store r) = done (store r) []).
Proof.
  intros Hrole Hold. unfold on_create_room. rewrite Hrole. simpl.
  split; [apply JSMapFacts.get_set_same|]. split; [reflexivity|]. split.
  - intros now Hne. unfold on_next_question.
    rewrite JSMapFacts.get_set_same. simpl.
    apply String.eqb_neq in Hne. now rewrite Hne.
  - intros player choiceIndices now. unfold on_answer.
    now rewrite JSMapFacts.get_set_same.
Qed.

Lemma create_room_replaces_witness :
  score_of (rooms single_answered) "ABCD" "P" = Some 1100%Q
  /\ score_of (store (on_create_room "G" (mkQuiz []) host_token "ABCD" 1
                                     (rooms single_answered))) "ABCD" "P" = None
  /\ on_next_question "H" "ABCD" 30000
       (store (on_create_room "G" (mkQuiz []) host_token "ABCD" 1
                              (rooms single_answered)))
     = done (store (on_create_room "G" (mkQuiz []) host_token "ABCD" 1
                                   (rooms single_answered))) [].
Proof.
  split; [reflexivity|].
  destruct (create_room_replaces "G" (mkQuiz []) (mkDecoded "u-1" "host") "ABCD" 1
              (rooms single_answered)
              (mkRoom 0 "H" "u-1" (mkQuiz [q_single])
                 [("P", mkPlayer "pat" 1100 true); ("R", mkPlayer "ron" 0 false)]
                 0 (Some 20000))
              eq_refl eq_refl)
    as (Hnew & _ & Hhost & _).
  split.
  - unfold score_of, host_token. rewrite Hnew. reflexivity.
  - apply Hhost. discriminate.
Defined.

(** ** Scores over a run *)

(** Where a player record of the table after one event comes from: either
    the event is the [player:join] of that connection to that room and the
    record is fresh, or the record was there before, under the same
    connection in the same room, with the same name and a score that was
    not larger. *)
Lemma step_player_origin (s : Server) (e : Event) (code : RoomCode)
    (room' : Room) (socket : SocketId) (p' : Player) :
  JSMap.wf (rooms s) ->
  JSMap.get code (rooms (step s e)) = Some room' ->
  JSMap.get socket (players room') = Some p' ->
  (score p' = 0%Q /\ exists nm, e = player_join socket code nm)
  \/ (exists room p,
         JSMap.get code (rooms s) = Some room
         /\ JSMap.get socket (players room) = Some p
         /\ name p' = name p
         /\ (score p <= score p')%Q).
Proof.
  intros Hwf.
  assert (Hsame : forall room, JSMap.get code (rooms s) = Some room ->
                    JSMap.get socket (players room) = Some p' ->
                    exists room0 p,
                      JSMap.get code (rooms s) = Some room0
                      /\ JSMap.get socket (players room0) = Some p
                      /\ name p' = name p /\ (score p <= score p')%Q).
  { intros room Hroom Hp. exists room, p'. repeat split; auto. apply Qle_refl. }
  destruct e; simpl.
  - unfold on_create_room. destruct verified as [decoded|]; simpl; [|eauto].
    destruct (String.eqb (role decoded) "host"); simpl; [|eauto].
    intros H Hp. lookup_written H; [discriminate Hp | eauto].
  - unfold on_join.
    destruct (JSMap.get roomCode (rooms s)) as [room|] eqn:Hroom; simpl; [|eauto].
    intros H Hp. lookup_written H; [|eauto]. simpl in Hp.
    destruct (string_dec socket0 socket) as [->|Hne].
    + rewrite JSMapFacts.get_set_same in Hp. injection Hp as <-. left. eauto.
    + rewrite JSMapFacts.get_set_other in Hp by assumption. eauto.
  - unfold on_next_question.
    destruct (JSMap.get roomCode (rooms s)) as [room|] eqn:Hroom; simpl; [|eauto].
    destruct (String.eqb socket0 (hostId room)); simpl; [|eauto].
    assert (Hreset : JSMap.get socket (reset_answered (players room)) = Some p' ->
                     exists room0 p,
                       JSMap.get roomCode (rooms s) = Some room0
                       /\ JSMap.get socket (players room0) = Some p
                       /\ name p' = name p /\ (score p <= score p')%Q).
    { rewrite get_reset_answered.
      destruct (JSMap.get socket (players room)) as [p|] eqn:Hp; [|discriminate].
      intros [= <-]. exists room, p. repeat split; auto. apply Qle_refl. }
    destruct (_ <=? _); [|destruct (current_question _)]; simpl;
      intros H Hp; lookup_written H; eauto.
  - unfold on_answer.
    destruct (JSMap.get roomCode (rooms s)) as [room|] eqn:Hroom; simpl; [|eauto].
    destruct (JSMap.get socket0 (players room)) as [player|] eqn:Hplayer;
      simpl; [|eauto].
    destruct (answered player); simpl; [eauto|].
    destruct (current_question room); simpl; intros H Hp;
      (lookup_written H; [|eauto]); simpl in Hp;
      (destruct (string_dec socket0 socket) as [->|Hne];
       [ rewrite JSMapFacts.get_set_same in Hp; injection Hp as <-
       | rewrite JSMapFacts.get_set_other in Hp by assumption; eauto ]);
      right; exists room, player; repeat split; auto; simpl.
    + pose proof (scoreEarned_nonneg q (playerAnswers choiceIndices)
                    (timeLeftMs room now) (timeLeftMs_nonneg room now)).
      lra.
    + apply Qle_refl.
  - rewrite on_disconnect_lookup by assumption.
    destruct (JSMap.get code (rooms s)) as [room|] eqn:Hroom; [|discriminate].
    unfold disconnect_leaves.
    destruct (String.eqb (hostId room) socket0); [discriminate|].
    destruct (JSMap.has socket0 (players room)); intros [= <-] Hp; [|eauto].
    simpl in Hp. destruct (string_dec socket0 socket) as [->|Hne].
    + rewrite JSMapFacts.get_delete_same in Hp. discriminate.
    + rewrite JSMapFacts.get_delete_other in Hp by assumption. eauto.
  - rewrite endQuestion_store. eauto.
Qed.

Lemma step_scores_ok (s : Server) (e : Event) :
  JSMap.wf (rooms s) -> scores_ok (rooms s) -> scores_ok (rooms (step s e)).
Proof.
  intros Hwf Hok code room' socket p' Hroom' Hp'.
  destruct (step_player_origin s e code room' socket p' Hwf Hroom' Hp')
    as [[-> _] | (room & p & Hroom & Hp & _ & Hle)].
  - apply Qle_refl.
  - eapply Qle_trans; [|exact Hle]. eapply Hok; eauto.
Qed.

(** X18.  In every run of the server from its start, no player ever has a
    negative score. *)
Theorem scores_never_negative (es : list Event) : scores_ok (rooms (run boot es)).
Proof.
  assert (H : forall s, inv s -> scores_ok (rooms s) -> scores_ok (rooms (run s es))).
  { induction es as [|e es IH]; intros s Hs Hok; simpl; auto.
    apply IH; [now apply step_inv | apply step_scores_ok; auto; apply Hs]. }
  apply H; [apply boot_inv|].
  intros code room socket p Hroom. discriminate Hroom.
Qed.

Lemma run_player_back (es : list Event) (s : Server) (code : RoomCode)
    (room' : Room) (socket : SocketId) (p' : Player) :
  inv s ->
  Forall (fun e => forall nm, e <> player_join socket code nm) es ->
  JSMap.get code (rooms (run s es)) = Some room' ->
  JSMap.get socket (players room') = Some p' ->
  exists room p,
    JSMap.get code (rooms s) = Some room
    /\ JSMap.get socket (players room) = Some p
    /\ name p' = name p
    /\ (score p <= score p')%Q.
Proof.
  revert s. induction es as [|e es IH]; intros s Hs Hno Hroom' Hp'; simpl in Hroom'.
  - exists room', p'. repeat split; auto. apply Qle_refl.
  - inversion Hno as [|? ? He Hes]; subst.
    destruct (IH (step s e) (step_inv s e Hs) Hes Hroom' Hp')
      as (room1 & p1 & Hroom1 & Hp1 & Hname1 & Hle1).
    destruct (step_player_origin s e code room1 socket p1 (proj1 Hs) Hroom1 Hp1)
      as [[_ [nm Hjoin]] | (room & p & Hroom & Hp & Hname & Hle)].
    + now destruct (He nm).
    + exists room, p. repeat split; auto; [congruence|].
      eapply Qle_trans; eauto.
Qed.

(** X19.  In every run of the server from its start, the score of a player only
    grows as long as the player's connection does not send [player:join]
    for the room again: take the table at some moment and again any number
    of events later, none of them such a join; a player found in both under
    the same connection and room code has the same name and a score at
    least as large. *)
Theorem score_grows_unless_rejoined (es es' : list Event) (roomCode : RoomCode)
    (socket : SocketId) (room room' : Room) (p p' : Player) :
  Forall (fun e => forall nm, e <> player_join socket roomCode nm) es' ->
  JSMap.get roomCode (rooms (run boot es)) = Some room ->
  JSMap.get socket (players room) = Some p ->
  JSMap.get roomCode (rooms (run (run boot es) es')) = Some room' ->
  JSMap.get socket (players room') = Some p' ->
  name p' = name p /\ (score p <= score p')%Q.
Proof.
  intros Hno Hroom Hp Hroom' Hp'.
  destruct (run_player_back es' (run boot es) roomCode room' socket p'
              (run_inv es boot boot_inv) Hno Hroom' Hp')
    as (room0 & p0 & Hroom0 & Hp0 & Hname & Hle).
  rewrite Hroom in Hroom0. injection Hroom0 as <-.
  rewrite Hp in Hp0. injection Hp0 as <-. auto.
Qed.

Lemma score_grows_unless_rejoined_witness :
  name (mkPlayer "pat" 1100 true) = name (mkPlayer "pat" 0 false)
  /\ (score (mkPlayer "pat" 0 false) <= score (mkPlayer "pat" 1100 true))%Q.
Proof.
  apply (score_grows_unless_rejoined
           (lobby_events (mkQuiz [q_single]))
           [host_next_question "H" "ABCD" 0;
            player_answer "P" "ABCD" (one_choice 1) 15000;
            timer_fires "ABCD"]
           "ABCD" "P" abcd_lobby
           (mkRoom 0 "H" "u-1" (mkQuiz [q_single])
              [("P", mkPlayer "pat" 1100 true); ("R", mkPlayer "ron" 0 false)]
              0 (Some 20000))).
  - repeat constructor; intros nm H; discriminate H.
  - reflexivity.
  - reflexivity.
  - reflexivity.
  - reflexivity.
Defined.

(** ** Deadlines over a run *)

Lemma step_deadline_ok (s : Server) (e : Event) :
  JSMap.wf (rooms s) -> deadline_ok (rooms s) -> deadline_ok (rooms (step s e)).
Proof.
  intros Hwf Hok code room' q'.
  assert (Hsame : forall room ps,
             JSMap.get code (rooms s) = Some room ->
             current_question (with_players room ps) = Some q' ->
             exists deadline, endsAt (with_players room ps) = Some deadline).
  { intros room ps Hroom Hq. simpl. eapply Hok; eauto. }
  destruct e; simpl.
  - unfold on_create_room. destruct verified as [decoded|]; simpl; [|eauto].
    destruct (String.eqb (role decoded) "host"); simpl; [|eauto].
    intros H Hq. lookup_written H; [discriminate Hq | eauto].
  - unfold on_join.
    destruct (JSMap.get roomCode (rooms s)) as [room|] eqn:Hroom; simpl; [|eauto].
    intros H Hq. lookup_written H; eauto.
  - unfold on_next_question.
    destruct (JSMap.get roomCode (rooms s)) as [room|] eqn:Hroom; simpl; [|eauto].
    destruct (String.eqb socket (hostId room)); simpl; [|eauto].
    destruct (_ <=? _) eqn:Hover;
      [|destruct (current_question (with_currentQ room (currentQ room + 1))) eqn:Hnext];
      simpl; intros H Hq; lookup_written H; eauto.
    + apply Z.leb_le in Hover. unfold current_question in Hq. simpl in Hq.
      assert (at_index (questions (quiz room)) (currentQ room + 1) = None)
        by (apply at_index_None; auto).
      congruence.
    + simpl. eauto.
    + unfold current_question in Hq, Hnext. simpl in Hq, Hnext. congruence.
  - unfold on_answer.
    destruct (JSMap.get roomCode (rooms s)) as [room|] eqn:Hroom; simpl; [|eauto].
    destruct (JSMap.get socket (players room)) as [player|]; simpl; [|eauto].
    destruct (answered player); simpl; [eauto|].
    destruct (current_question room); simpl; intros H Hq; lookup_written H; eauto.
  - rewrite on_disconnect_lookup by assumption.
    destruct (JSMap.get code (rooms s)) as [room|] eqn:Hroom; [|discriminate].
    unfold disconnect_leaves.
    destruct (String.eqb (hostId room) socket); [discriminate|].
    destruct (JSMap.has socket (players room)); intros [= <-] Hq; eauto.
  - rewrite endQuestion_store. eauto.
Qed.

(** X20.  In every run of the server from its start, a room whose index points
    at a question has a deadline, so that an accepted answer is never
    timed against the missing ([null]) deadline of a new room. *)
Theorem question_has_deadline (es : list Event) : deadline_ok (rooms (run boot es)).
Proof.
  assert (H : forall s, inv s -> deadline_ok (rooms s) -> deadline_ok (rooms (run s es))).
  { induction es as [|e es IH]; intros s Hs Hok; simpl; auto.
    apply IH; [now apply step_inv | apply step_deadline_ok; auto; apply Hs]. }
  apply H; [apply boot_inv|].
  intros code room q Hroom. discriminate Hroom.
Qed.

(** ** The draw of a room code *)

Lemma toUpperCase_length (s : string) :
  String.length (toUpperCase s) = String.length s.
Proof. induction s as [|c s IH]; simpl; auto. Qed.

Lemma substring_0_length (m : nat) (s : string) :
  String.length (String.substring 0 m s) = Nat.min m (String.length s).
Proof.
  revert s. induction m as [|m IH]; intros [|c s]; simpl; auto.
Qed.

Lemma substring_0_forall (p : Ascii.ascii -> bool) (m : nat) (s : string) :
  string_forall p s = true -> string_forall p (String.substring 0 m s) = true.
Proof.
  revert s. induction m as [|m IH]; intros [|c s]; simpl; auto.
  intros H. apply andb_true_iff in H. destruct H as [Hc Hs].
  rewrite Hc. simpl. auto.
Qed.

Lemma upper_char_code (c : Ascii.ascii) :
  base36_digit c = true -> code_char (upper_char c) = true.
Proof.
  destruct c as [[] [] [] [] [] [] [] []]; vm_compute; auto.
Qed.

Lemma toUpperCase_code (s : string) :
  string_forall base36_digit s = true -> string_forall code_char (toUpperCase s) = true.
Proof.
  induction s as [|c s IH]; simpl; auto.
  intros H. apply andb_true_iff in H. destruct H as [Hc Hs].
  rewrite (upper_char_code c Hc). simpl. auto.
Qed.

(** X21.  The code drawn from the rendering "0." followed by [digits] is made of
    the first four of the digits, in upper case: it has four characters
    only if there are at least four digits -- fewer otherwise, none for the
    rendering "0" -- and each is a decimal digit or a letter A-Z. *)
Theorem room_code_shape (digits : string) :
  string_forall base36_digit digits = true ->
  let code := draw_room_code ("0." ++ digits) in
  code = toUpperCase (String.substring 0 4 digits)
  /\ String.length code = Nat.min 4 (String.length digits)
  /\ string_forall code_char code = true
  /\ draw_room_code "0" = "".
Proof.
  intros Hd code.
  assert (E : code = toUpperCase (String.substring 0 4 digits)) by reflexivity.
  rewrite E. repeat split.
  - now rewrite toUpperCase_length, substring_0_length.
  - now apply toUpperCase_code, substring_0_forall.
Qed.

Lemma room_code_shape_witness :
  draw_room_code "0.k3f9zq81" = "K3F9" /\ draw_room_code "0.i" = "I".
Proof.
  destruct (room_code_shape "k3f9zq81" eq_refl) as (H1 & _).
  destruct (room_code_shape "i" eq_refl) as (H2 & _).
  split; [exact H1 | exact H2].
Defined.

(** ** The properties without a premise, at work *)


Lemma endQuestion_throws_iff_witness :
  completion (endQuestion "ABCD" (rooms single_over)) = TypeError
  /\ store (endQuestion "ABCD" (rooms single_over)) = rooms single_over.
Proof.
  destruct (endQuestion_throws_iff "ABCD" (rooms single_over)) as (Hiff & Hstore & _).
  split; [|exact Hstore].
  apply Hiff. exists abcd_over. split; [reflexivity|]. right. simpl. lia.
Defined.

Lemma scores_never_negative_witness : (0 <= 1100)%Q.
Proof.
  apply (scores_never_negative
           (lobby_events (mkQuiz [q_single])
            ++ [host_next_question "H" "ABCD" 0;
                player_answer "P" "ABCD" (one_choice 1) 15000])
           "ABCD"
           (mkRoom 0 "H" "u-1" (mkQuiz [q_single])
              [("P", mkPlayer "pat" 1100 true); ("R", mkPlayer "ron" 0 false)]
              0 (Some 20000))
           "P" (mkPlayer "pat" 1100 true));
    reflexivity.
Defined.

Lemma question_has_deadline_witness :
  exists deadline, endsAt abcd_running = Some deadline.
Proof.
  apply (question_has_deadline
           (lobby_events (mkQuiz [q_single]) ++ [host_next_question "H" "ABCD" 0])
           "ABCD" abcd_running q_single);
    reflexivity.
Defined.
